(** * ConnectionPool.py: the gevent connection pool and its transaction scope

    A shallow embedding of [DatabaseConnectionPool] (src/ConnectionPool.py):
    the pool object ([maxsize], [size], the idle queue [pool]), the
    connection objects it hands out, and the generator-based context manager
    [connection] with its try / except / else / finally clauses.

    Connection objects live in a store addressed by handles, because the
    pool, the transaction scope and the caller's block all hold references to
    the same object.  The database driver and gevent's hub are external
    collaborators: their methods are the fields of a [Driver] record, and the
    properties of the pool are proved for every driver and hub. *)

From Stdlib Require Import ZArith List String Bool Lia.
Import ListNotations.
Local Open Scope Z_scope.

(** ** Exceptions *)

(** Python exceptions that can travel through the pool.  [Failure] stands for
    any error deriving from [Exception] that the driver or the caller's block
    raises; [Interrupt] for one deriving from [BaseException] only
    (KeyboardInterrupt, SystemExit, GeneratorExit, gevent.Timeout). *)
Inductive exn : Type :=
| NameError (name : string)
| OperationalError (conn : nat)
| Failure (tag : nat)
| Interrupt (tag : nat).

(** [isinstance(e, Exception)]: what [contextlib.suppress(Exception)] stops. *)
Definition is_Exception (e : exn) : bool :=
  match e with
  | Interrupt _ => false
  | _ => true
  end.

(** The names bound in the module's global scope when a method runs: the
    imports of lines 1-8, [integer_types] and the two classes.  None of them
    is a builtin's name, and no builtin is called [OperationalError]. *)
Definition module_globals : list string :=
  [ "print_function"; "sys"; "contextlib"; "gevent"; "Queue"; "wait_read";
    "wait_write"; "connect"; "integer_types"; "DatabaseConnectionPool";
    "ODBCConnectionPool" ]%string.

Definition is_bound (name : string) : bool :=
  existsb (String.eqb name) module_globals.

(** Evaluating [OperationalError("Cannot commit ... %r" % (conn, ))]: the
    callee's name is looked up first; an unbound name raises [NameError]. *)
Definition new_OperationalError (conn : nat) : exn :=
  if is_bound "OperationalError" then OperationalError conn
  else NameError "OperationalError".

(** ** Connection objects and the driver *)

Definition handle := nat.

(** What the pool reads of a connection object: the attributes [connected]
    and [isolation_level]; [driver_state] is the rest of the object. *)
Record Conn : Type := mkConn {
  connected : bool;
  isolation_level : Z;
  driver_state : nat
}.

(** The driver.  [connect k] is the [k]-th invocation of the factory behind
    [create_connection]: it raises, or builds a connection object.  A method
    call takes the object's state and gives what it raised, if anything, and
    the object's new state.

    [handle_error e] is [gevent.get_hub().handle_error] called with the
    exception [e]: what the call raises, if anything.  gevent's hub prints
    the error and returns, except that it throws [KeyboardInterrupt],
    [SystemExit] and [SystemError] into the main greenlet, which raises them
    in the caller when the caller is the main greenlet. *)
Record Driver : Type := mkDriver {
  connect : nat -> exn + (handle * Conn);
  commit : Conn -> option exn * Conn;
  rollback : Conn -> option exn * Conn;
  close : Conn -> option exn * Conn;
  set_isolation_level : Z -> Conn -> option exn * Conn;
  handle_error : exn -> option exn
}.

(** Method calls that the pool issues, in order; [EvHandleError] is the
    report to [gevent.get_hub().handle_error]. *)
Inductive event : Type :=
| EvCommit (h : handle)
| EvRollback (h : handle)
| EvClose (h : handle)
| EvSetIsolationLevel (h : handle) (level : Z)
| EvHandleError (h : handle) (e : exn).

(** ** The pool and its environment *)

(** [maxsize], [size] and [pool] are the attributes of the
    [DatabaseConnectionPool] instance ([pool] is the gevent [Queue], oldest
    item first); [heap] holds the connection objects, [connects] counts the
    factory's invocations and [trace] records the calls made. *)
Record World : Type := mkWorld {
  maxsize : Z;
  size : Z;
  pool : list handle;
  heap : handle -> Conn;
  connects : nat;
  trace : list event
}.

Definition set_size (n : Z) (w : World) : World :=
  mkWorld (maxsize w) n (pool w) (heap w) (connects w) (trace w).

Definition set_pool (q : list handle) (w : World) : World :=
  mkWorld (maxsize w) (size w) q (heap w) (connects w) (trace w).

Definition set_conn (h : handle) (c : Conn) (w : World) : World :=
  mkWorld (maxsize w) (size w) (pool w)
          (fun h' => if Nat.eqb h' h then c else heap w h')
          (connects w) (trace w).

Definition count_connect (w : World) : World :=
  mkWorld (maxsize w) (size w) (pool w) (heap w) (S (connects w)) (trace w).

Definition log (ev : event) (w : World) : World :=
  mkWorld (maxsize w) (size w) (pool w) (heap w) (connects w) (trace w ++ [ev]).

(** [evs] are the calls made from world [w] to world [w']. *)
Definition issued (w w' : World) (evs : list event) : Prop :=
  trace w' = trace w ++ evs.

(** [DatabaseConnectionPool.__init__] for an integer [maxsize]. *)
Definition init (maxsize : Z) (objects : handle -> Conn) : World :=
  mkWorld maxsize 0 [] objects 0 [].

(** How a call ends: it returns, it raises, or the greenlet is suspended in
    [Queue.get] on an empty queue. *)
Inductive result (A : Type) : Type :=
| Return (a : A)
| Raise (e : exn)
| Blocked.
Arguments Return {A} a.
Arguments Raise {A} e.
Arguments Blocked {A}.

Definition completion (pending : option exn) : result unit :=
  match pending with
  | Some e => Raise e
  | None => Return tt
  end.

(** A [with] block: given the connection it may change anything in the
    world, and it returns or raises. *)
Definition block := handle -> World -> option exn * World.

Section Pool.

Variable drv : Driver.

(** [conn.m()] on the object behind [h]. *)
Definition call (m : Conn -> option exn * Conn) (ev : event) (h : handle)
    (w : World) : option exn * World :=
  let '(r, c) := m (heap w h) in
  (r, log ev (set_conn h c w)).

(** Line 31: the creation slot is taken before the factory runs. *)
Definition reserve (w : World) : World := set_size (size w + 1) w.

(** Lines 32-37: the factory returns the new item, whose object is from now
    on in the store, or the slot is given back and the error re-raised. *)
Definition create (w : World) : result handle * World :=
  let w1 := count_connect w in
  match connect drv (connects w) with
  | inr (h, c) => (Return h, set_conn h c w1)
  | inl e => (Raise e, set_size (size w1 - 1) w1)
  end.

(** Line 30, [pool.get()] on the gevent queue: the oldest item, or the
    greenlet waits for a [put]. *)
Definition queue_get (w : World) : result handle * World :=
  match pool w with
  | h :: q => (Return h, set_pool q w)
  | [] => (Blocked, w)
  end.

(** [DatabaseConnectionPool.get]. *)
Definition get (w : World) : result handle * World :=
  if (maxsize w <=? size w) || negb (Nat.eqb (List.length (pool w)) 0) then
    queue_get w
  else create (reserve w).

(** [DatabaseConnectionPool.put]: the gevent queue is unbounded. *)
Definition put (item : handle) (w : World) : World :=
  set_pool (pool w ++ [item]) w.

(** [DatabaseConnectionPool.closeall], one loop iteration per idle item:
    [get_nowait], then [close] under [contextlib.suppress(Exception)]. *)
Fixpoint closeall_loop (q : list handle) (w : World) : option exn * World :=
  match q with
  | [] => (None, w)
  | h :: q' =>
      let '(r, w1) := call (close drv) (EvClose h) h (set_pool q' w) in
      match r with
      | Some e => if is_Exception e then closeall_loop q' w1 else (Some e, w1)
      | None => closeall_loop q' w1
      end
  end.

Definition closeall (w : World) : option exn * World :=
  closeall_loop (pool w) w.

(** [DatabaseConnectionPool._rollback]: it returns the handle to keep, if
    any, or raises what the hub's [handle_error] raised. *)
Definition _rollback (h : handle) (w : World)
    : (exn + option handle) * World :=
  let '(r, w1) := call (rollback drv) (EvRollback h) h w in
  match r with
  | Some e =>
      match handle_error drv e with
      | Some x => (inl x, log (EvHandleError h e) w1)
      | None => (inr None, log (EvHandleError h e) w1)
      end
  | None => (inr (Some h), w1)
  end.

(** Lines 69-73, the [finally] clause; [pending] is the exception in flight.
    An exception raised here replaces it. *)
Definition finally_clause (conn : option handle) (level : option Z)
    (pending : option exn) (w : World) : result unit * World :=
  match conn with
  | Some h =>
      if connected (heap w h) then
        match level with
        | Some l =>
            let '(r, w1) :=
              call (set_isolation_level drv l) (EvSetIsolationLevel h l) h w in
            match r with
            | Some e => (Raise e, w1)
            | None => (completion pending, put h w1)
            end
        | None => (completion pending, put h w)
        end
      else (completion pending, w)
  | None => (completion pending, w)
  end.

(** Lines 58-64, the [except] clause, followed by [finally].  When
    [_rollback] raises, the assignment of line 63 does not take place: [conn]
    is still the handle, and what [_rollback] raised is in flight. *)
Definition except_clause (e : exn) (h : handle) (level : option Z)
    (w : World) : result unit * World :=
  if negb (connected (heap w h)) then
    let '(r, w1) := closeall w in
    match r with
    | Some e' => finally_clause None level (Some e') w1
    | None => finally_clause None level (Some e) w1
    end
  else
    let '(r, w1) := _rollback h w in
    match r with
    | inr conn => finally_clause conn level (Some e) w1
    | inl e' => finally_clause (Some h) level (Some e') w1
    end.

(** Lines 65-68, the [else] clause, followed by [finally]; what it raises
    does not reach the [except] clause. *)
Definition else_clause (h : handle) (level : option Z) (w : World)
    : result unit * World :=
  if negb (connected (heap w h)) then
    finally_clause (Some h) level (Some (new_OperationalError h)) w
  else
    let '(r, w1) := call (commit drv) (EvCommit h) h w in
    finally_clause (Some h) level r w1.

(** Lines 50-57, up to the [yield]: either the generator yields [conn] with
    the value its [isolation_level] variable now has, or the scope is over. *)
Inductive entry : Type :=
| Yielded (h : handle) (level : option Z) (w : World)
| Unwound (r : result unit) (w : World).

Definition enter (level : option Z) (w : World) : entry :=
  match get w with
  | (Blocked, w1) => Unwound Blocked w1
  | (Raise e, w1) => Unwound (Raise e) w1
  | (Return h, w1) =>
      match level with
      | None => Yielded h None w1
      | Some l =>
          if isolation_level (heap w1 h) =? l then Yielded h None w1
          else
            let '(r, w2) :=
              call (set_isolation_level drv l) (EvSetIsolationLevel h l) h w1 in
            match r with
            | Some e =>
                let '(r', w3) := except_clause e h (Some l) w2 in
                Unwound r' w3
            | None => Yielded h (Some l) w2
            end
      end
  end.

(** After the [yield]: the block returned, or its exception is thrown into
    the generator. *)
Definition leave (h : handle) (level : option Z) (raised : option exn)
    (w : World) : result unit * World :=
  match raised with
  | None => else_clause h level w
  | Some e => except_clause e h level w
  end.

(** [with pool.connection(isolation_level) as conn: body]. *)
Definition connection (level : option Z) (body : block) (w : World)
    : result unit * World :=
  match enter level w with
  | Yielded h level' w1 =>
      let '(raised, w2) := body h w1 in
      leave h level' raised w2
  | Unwound r w1 => (r, w1)
  end.

(** ** Sequences of acquisitions and releases *)

Inductive op : Type :=
| Acquire
| Release (h : handle).

Definition step (w : World) (o : op) : World :=
  match o with
  | Acquire => snd (get w)
  | Release h => put h w
  end.

Definition run (ops : list op) (w : World) : World := fold_left step ops w.

(** The same calls made by several greenlets.  gevent switches greenlets only
    where one blocks: inside the factory's I/O, or in [pool.get()] on an empty
    queue.  So a [get] that creates runs in two atomic parts, lines 28-31 and
    lines 32-37, and other greenlets' parts may run in between.  The second
    component of the state counts the greenlets inside the factory. *)
Inductive action : Type :=
| Begin
| Finish
| Give (h : handle).

Definition act (s : World * nat) (a : action) : World * nat :=
  let '(w, creating) := s in
  match a with
  | Begin =>
      if (maxsize w <=? size w) || negb (Nat.eqb (List.length (pool w)) 0) then
        (snd (queue_get w), creating)
      else (reserve w, S creating)
  | Finish =>
      match creating with
      | O => (w, O)
      | S k => (snd (create w), k)
      end
  | Give h => (put h w, creating)
  end.

Definition schedule (acts : list action) (w : World) : World * nat :=
  fold_left act acts (w, O).

End Pool.

(** ** A sample driver, sample worlds and sample blocks

    Used to run the pool on concrete inputs. *)

Definition fresh : Conn := mkConn true 0 0.

(** A connection whose [rollback] fails has [driver_state] 1, one whose
    [close] fails has 2; the factory fails on its odd-numbered invocations and
    otherwise builds connection number [k].  The hub's [handle_error]
    returns. *)
Definition sample_driver : Driver :=
  {| connect k := if Nat.even k then inr (k, fresh) else inl (Failure k);
     commit c := (None, c);
     rollback c :=
       (if Nat.eqb (driver_state c) 1 then Some (Failure 1) else None, c);
     close c :=
       (if Nat.eqb (driver_state c) 2 then Some (Failure 2) else None,
        mkConn false (isolation_level c) (driver_state c));
     set_isolation_level l c :=
       (None, mkConn (connected c) l (driver_state c));
     handle_error _ := None |}.

(** The block's statement runs and changes nothing the pool looks at. *)
Definition body_ok : block := fun _ w => (None, w).

(** The statement fails; the connection is still up. *)
Definition body_raises : block := fun _ w => (Some (Failure 9), w).

(** The statement appears to succeed, but the connection has dropped. *)
Definition body_drops : block :=
  fun h w =>
    (None, set_conn h (mkConn false (isolation_level (heap w h))
                              (driver_state (heap w h))) w).

(** The statement fails because the connection has dropped. *)
Definition body_drops_raises : block :=
  fun h w =>
    (Some (Failure 9),
     set_conn h (mkConn false (isolation_level (heap w h))
                        (driver_state (heap w h))) w).

(** A pool of capacity 2 with both connections idle; [state 2] is the
    [driver_state] of connection 2. *)
Definition two_idle (state2 : nat) : World :=
  mkWorld 2 2 [1; 2]%nat
          (fun h => if Nat.eqb h 2 then mkConn true 0 state2 else fresh)
          2 [].

(** A pool of capacity 1 whose only connection, of [driver_state] [state1],
    is idle. *)
Definition one_idle (state1 : nat) : World :=
  mkWorld 1 1 [1%nat] (fun _ => mkConn true 0 state1) 2 [].

(** A pool of capacity 2 whose one connection is checked out; the factory
    has been invoked once. *)
Definition one_out : World := mkWorld 2 1 [] (fun _ => fresh) 1 [].

(** ** Counting and repeating acquisitions *)

(** The number of connection objects the factory built in its first [n]
    invocations. *)
Fixpoint built (drv : Driver) (n : nat) : nat :=
  match n with
  | O => O
  | S k =>
      match connect drv k with
      | inr _ => S (built drv k)
      | inl _ => built drv k
      end
  end.

(** [n] calls of [get] in a row: how each ended, and the world after. *)
Fixpoint acquire_n (drv : Driver) (n : nat) (w : World)
    : list (result handle) * World :=
  match n with
  | O => ([], w)
  | S k =>
      let '(r, w1) := get drv w in
      let '(rs, w2) := acquire_n drv k w1 in
      (r :: rs, w2)
  end.

(** ** Cursors and the convenience methods *)

Definition row := list Z.

(** What the pool reads of a cursor object: the attribute [rowcount];
    [cursor_state] is the rest of the object. *)
Record Cursor : Type := mkCursor {
  rowcount : Z;
  cursor_state : nat
}.

(** Keyword arguments: a dictionary from names to values, a value being
    [None] or an integer. *)
Definition kwargs := list (string * option Z).

Fixpoint dict_find (k : string) (d : kwargs) : option (option Z) :=
  match d with
  | [] => None
  | (k', v) :: d' => if String.eqb k k' then Some v else dict_find k d'
  end.

Definition dict_remove (k : string) (d : kwargs) : kwargs :=
  filter (fun kv => negb (String.eqb k (fst kv))) d.

(** [d.pop(k, default)]: the value, and the dictionary afterwards. *)
Definition dict_pop (k : string) (default : option Z) (d : kwargs)
    : option Z * kwargs :=
  (match dict_find k d with
   | Some v => v
   | None => default
   end,
   dict_remove k d).

(** The cursor side of the driver.  [conn_cursor args kw] is
    [conn.cursor] called with the positional arguments [args] and the keyword
    arguments [kw]; the cursor's methods take the positional
    arguments (the statement and its parameters), the cursor's state and the
    state of the connection the cursor belongs to, and give what they
    returned or raised and the two new states. *)
Record CursorDriver : Type := mkCursorDriver {
  conn_cursor : list string -> kwargs -> Conn -> (exn + Cursor) * Conn;
  cursor_execute : list string -> Cursor -> Conn -> option exn * Cursor * Conn;
  cursor_fetchone : Cursor -> Conn -> (exn + option row) * Cursor * Conn;
  cursor_fetchall : Cursor -> Conn -> (exn + list row) * Cursor * Conn;
  cursor_fetchmany : Cursor -> Conn -> (exn + list row) * Cursor * Conn
}.

(** [GeneratorExit], which [close] throws into a suspended generator. *)
Definition GeneratorExit : exn := Interrupt 0.

(** What a method returns after a [with] statement that ended in [out]:
    the value its block computed, unless the statement raised. *)
Definition returned {A : Type} (v : A) (out : result unit) : result A :=
  match out with
  | Return _ => Return v
  | Raise e => Raise e
  | Blocked => Blocked
  end.

Section Cursors.

Variable drv : Driver.
Variable cd : CursorDriver.

(** [with self.connection(level) as conn: body] inside a method: the block
    also computes a value, [default] when it does not get to compute one.
    The result is that value, how the [with] statement ended, and the
    world. *)
Definition within_connection {A : Type} (level : option Z)
    (body : handle -> World -> A * option exn * World) (default : A)
    (w : World) : A * result unit * World :=
  match enter drv level w with
  | Yielded h level' w1 =>
      let '(a, raised, w2) := body h w1 in
      let '(out, w3) := leave drv h level' raised w2 in
      (a, out, w3)
  | Unwound out w1 => (default, out, w1)
  end.

(** [DatabaseConnectionPool.cursor], with the block of its [with]
    statement: [isolation_level] is popped from the keyword arguments, the
    rest goes to [conn.cursor]. *)
Definition cursor {A : Type} (args : list string) (kw : kwargs)
    (body : Cursor -> handle -> World -> A * option exn * World)
    (default : A) (w : World) : A * result unit * World :=
  let '(level, kw') := dict_pop "isolation_level" None kw in
  within_connection level
    (fun h w1 =>
       let '(r, c) := conn_cursor cd args kw' (heap w1 h) in
       match r with
       | inl e => (default, Some e, set_conn h c w1)
       | inr cur => body cur h (set_conn h c w1)
       end)
    default w.

(** [cursor.m()] on a cursor of the connection behind [h]. *)
Definition cursor_call {B : Type} (m : Cursor -> Conn -> B * Cursor * Conn)
    (cur : Cursor) (h : handle) (w : World) : B * Cursor * World :=
  let '(b, cur', c) := m cur (heap w h) in
  (b, cur', set_conn h c w).

(** Lines 91-92: [cursor.execute] on [args], then [cursor.rowcount]. *)
Definition execute_body (args : list string) (cur : Cursor) (h : handle)
    (w : World) : option Z * option exn * World :=
  let '(r, cur', w1) := cursor_call (cursor_execute cd args) cur h w in
  match r with
  | Some e => (None, Some e, w1)
  | None => (Some (rowcount cur'), None, w1)
  end.

(** [DatabaseConnectionPool.execute]; a result [None] is Python's [None]. *)
Definition execute (args : list string) (kw : kwargs) (w : World)
    : result (option Z) * World :=
  let '(v, out, w') := cursor [] kw (execute_body args) None w in
  (returned v out, w').

(** Lines 96-97; [fetchone] gives a row or [None]. *)
Definition fetchone_body (args : list string) (cur : Cursor) (h : handle)
    (w : World) : option (option row) * option exn * World :=
  let '(r, cur', w1) := cursor_call (cursor_execute cd args) cur h w in
  match r with
  | Some e => (None, Some e, w1)
  | None =>
      let '(v, _, w2) := cursor_call (cursor_fetchone cd) cur' h w1 in
      match v with
      | inl e => (None, Some e, w2)
      | inr x => (Some x, None, w2)
      end
  end.

(** [DatabaseConnectionPool.fetchone]. *)
Definition fetchone (args : list string) (kw : kwargs) (w : World)
    : result (option (option row)) * World :=
  let '(v, out, w') := cursor [] kw (fetchone_body args) None w in
  (returned v out, w').

(** Lines 101-102. *)
Definition fetchall_body (args : list string) (cur : Cursor) (h : handle)
    (w : World) : option (list row) * option exn * World :=
  let '(r, cur', w1) := cursor_call (cursor_execute cd args) cur h w in
  match r with
  | Some e => (None, Some e, w1)
  | None =>
      let '(v, _, w2) := cursor_call (cursor_fetchall cd) cur' h w1 in
      match v with
      | inl e => (None, Some e, w2)
      | inr rows => (Some rows, None, w2)
      end
  end.

(** [DatabaseConnectionPool.fetchall]. *)
Definition fetchall (args : list string) (kw : kwargs) (w : World)
    : result (option (list row)) * World :=
  let '(v, out, w') := cursor [] kw (fetchall_body args) None w in
  (returned v out, w').

(** Lines 107-111, the loop of [fetchiter], run by a consumer that does
    nothing else in between: [want = None] iterates to the end, [want =
    Some n] takes [n] items (at least one) and then calls [close], which
    raises [GeneratorExit] at the [yield] of the last item taken.  [seen]
    are the items yielded so far.  Every turn of the loop takes one unit of
    [fuel]; the rows are [None] when the fuel runs out. *)
Fixpoint fetch_loop (fuel : nat) (want : option nat) (cur : Cursor)
    (h : handle) (w : World) (seen : list row)
    : option (list row) * option exn * World :=
  match fuel with
  | O => (None, None, w)
  | S fuel' =>
      let '(r, cur', w1) := cursor_call (cursor_fetchmany cd) cur h w in
      match r with
      | inl e => (Some seen, Some e, w1)
      | inr [] => (Some seen, None, w1)
      | inr items =>
          match want with
          | None => fetch_loop fuel' None cur' h w1 (seen ++ items)
          | Some n =>
              if (n <=? List.length items)%nat then
                (Some (seen ++ firstn n items), Some GeneratorExit, w1)
              else
                fetch_loop fuel' (Some (n - List.length items)%nat) cur' h w1
                           (seen ++ items)
          end
      end
  end.

(** Lines 105-111, the block of [fetchiter]'s [with] statement. *)
Definition fetchiter_body (fuel : nat) (want : option nat)
    (args : list string) (cur : Cursor) (h : handle) (w : World)
    : option (list row) * option exn * World :=
  let '(r, cur', w1) := cursor_call (cursor_execute cd args) cur h w in
  match r with
  | Some e => (Some [], Some e, w1)
  | None => fetch_loop fuel want cur' h w1 []
  end.

(** [DatabaseConnectionPool.fetchiter] under such a consumer: the items the
    consumer received, how the generator's [with] statement ended (with
    [GeneratorExit] when the generator was closed), and the world; [None]
    when [fuel] was too small.  A generator that is closed before its first
    [next] never runs. *)
Definition fetchiter (fuel : nat) (want : option nat) (args : list string)
    (kw : kwargs) (w : World) : option (list row * result unit * World) :=
  match want with
  | Some O => Some ([], Return tt, w)
  | _ =>
      let '(v, out, w') :=
        cursor [] kw (fetchiter_body fuel want args) (Some []) w in
      match v with
      | Some rows => Some (rows, out, w')
      | None => None
      end
  end.

(** The two results of line 77's [kwargs.pop('isolation_level', None)]. *)
Definition scope_level (kw : kwargs) : option Z :=
  fst (dict_pop "isolation_level" None kw).

Definition cursor_kwargs (kw : kwargs) : kwargs :=
  snd (dict_pop "isolation_level" None kw).

(** [serves cur c batches cur' c']: from the cursor state [cur] and the
    connection state [c], successive calls of [fetchmany] return the
    non-empty [batches] and then an empty one, and leave the states [cur']
    and [c']. *)
Inductive serves : Cursor -> Conn -> list (list row) -> Cursor -> Conn -> Prop :=
| serves_end (cur cur' : Cursor) (c c' : Conn) :
    cursor_fetchmany cd cur c = (inr [], cur', c') ->
    serves cur c [] cur' c'
| serves_batch (cur cur1 cur' : Cursor) (c c1 c' : Conn) (b : list row)
    (bs : list (list row)) :
    cursor_fetchmany cd cur c = (inr b, cur1, c1) ->
    b <> [] ->
    serves cur1 c1 bs cur' c' ->
    serves cur c (b :: bs) cur' c'.

End Cursors.

(** A sample cursor driver over a table of three rows: [execute] fails on
    an empty argument list, [fetchmany] gives batches of two rows, and no
    cursor can be opened on a connection of [driver_state] 3.
    [cursor_state] is the number of rows fetched so far. *)
Definition sample_table : list row := [[1]; [2]; [3]].

Definition sample_cursors : CursorDriver :=
  {| conn_cursor _ _ c :=
       (if Nat.eqb (driver_state c) 3 then inl (Failure 3)
        else inr (mkCursor (-1) 0), c);
     cursor_execute args cur c :=
       match args with
       | [] => (Some (Failure 4), cur, c)
       | _ => (None, mkCursor 3 0, c)
       end;
     cursor_fetchone cur c :=
       (inr (nth_error sample_table (cursor_state cur)),
        mkCursor (rowcount cur) (S (cursor_state cur)), c);
     cursor_fetchall cur c :=
       (inr (skipn (cursor_state cur) sample_table),
        mkCursor (rowcount cur) (List.length sample_table), c);
     cursor_fetchmany cur c :=
       (inr (firstn 2 (skipn (cursor_state cur) sample_table)),
        mkCursor (rowcount cur) (2 + cursor_state cur), c) |}.

(** A driver like the sample one, but whose [set_isolation_level] refuses
    negative levels and refuses to set the level that is already set. *)
Definition strict_driver : Driver :=
  {| connect := connect sample_driver;
     commit := commit sample_driver;
     rollback := rollback sample_driver;
     close := close sample_driver;
     set_isolation_level l c :=
       if l <? 0 then (Some (Failure 6), c)
       else if isolation_level c =? l then (Some (Failure 5), c)
       else (None, mkConn (connected c) l (driver_state c));
     handle_error := handle_error sample_driver |}.

(** The pool used from the main greenlet, over a driver whose [rollback]
    is interrupted on a connection of [driver_state] 1: [Interrupt 2] stands
    for [KeyboardInterrupt], which the hub's [handle_error] raises again in
    its caller. *)
Definition main_greenlet_driver : Driver :=
  {| connect := connect sample_driver;
     commit := commit sample_driver;
     rollback c :=
       (if Nat.eqb (driver_state c) 1 then Some (Interrupt 2) else None, c);
     close := close sample_driver;
     set_isolation_level := set_isolation_level sample_driver;
     handle_error e :=
       match e with
       | Interrupt 2 => Some e
       | _ => None
       end |}.

(** A driver whose [commit] and [rollback] return but find the connection
    gone: the connection reports not connected afterwards. *)
Definition dropping_driver : Driver :=
  {| connect := connect sample_driver;
     commit c := (None, mkConn false (isolation_level c) (driver_state c));
     rollback c := (None, mkConn false (isolation_level c) (driver_state c));
     close := close sample_driver;
     set_isolation_level := set_isolation_level sample_driver;
     handle_error := handle_error sample_driver |}.

(** Keyword arguments of a call that asks for no isolation level. *)
Definition sample_kwargs : kwargs := [("timeout"%string, Some 30)].

(** [commit] and [rollback] are the calls that end a transaction. *)
Definition ends_transaction (ev : event) : bool :=
  match ev with
  | EvCommit _ | EvRollback _ => true
  | _ => false
  end.

(** * Properties *)

Section Properties.

Variable drv : Driver.

(** ** Acquisition *)

Lemma get_idle (w : World) (h : handle) (q : list handle) :
  pool w = h :: q -> get drv w = (Return h, set_pool q w).
Proof.
  intros Hq. unfold get, queue_get. rewrite Hq. simpl.
  now rewrite orb_true_r.
Qed.

Lemma get_full_empty (w : World) :
  maxsize w <= size w -> pool w = [] -> get drv w = (Blocked, w).
Proof.
  intros Hfull Hq. unfold get, queue_get. rewrite Hq.
  apply Z.leb_le in Hfull. now rewrite Hfull.
Qed.

Lemma get_creates (w : World) :
  size w < maxsize w -> pool w = [] -> get drv w = create drv (reserve w).
Proof.
  intros Hroom Hq. unfold get. rewrite Hq. simpl.
  apply Z.leb_gt in Hroom. now rewrite Hroom.
Qed.

(** The three cases of line 29. *)
Lemma get_cases (w : World) :
  (exists h q, pool w = h :: q /\ get drv w = (Return h, set_pool q w)) \/
  (pool w = [] /\ maxsize w <= size w /\ get drv w = (Blocked, w)) \/
  (pool w = [] /\ size w < maxsize w /\ get drv w = create drv (reserve w)).
Proof.
  destruct (pool w) as [|h q] eqn:Hq.
  - destruct (Z_le_gt_dec (maxsize w) (size w)) as [Hfull|Hroom].
    + right; left. auto using get_full_empty.
    + right; right. repeat split; [lia|]. apply get_creates; [lia|assumption].
  - left. exists h, q. auto using get_idle.
Qed.

Lemma create_cases (w : World) :
  (exists h c, connect drv (connects w) = inr (h, c) /\
     create drv w = (Return h, set_conn h c (count_connect w))) \/
  (exists e, connect drv (connects w) = inl e /\
     create drv w = (Raise e, set_size (size w - 1) (count_connect w))).
Proof.
  unfold create. destruct (connect drv (connects w)) as [e|[h c]].
  - right. now exists e.
  - left. now exists h, c.
Qed.

(** What [get] does to the counters, whichever branch it takes. *)
Lemma get_counters (w : World) :
  maxsize (snd (get drv w)) = maxsize w /\
  (size (snd (get drv w)) = size w \/
   size (snd (get drv w)) = size w + 1 /\ size w < maxsize w).
Proof.
  destruct (get_cases w) as [(h & q & _ & E)|[(_ & _ & E)|(_ & Hroom & E)]];
    rewrite E; simpl; auto.
  destruct (create_cases (reserve w)) as [(h & c & _ & E')|(e & _ & E')];
    rewrite E'; simpl; (split; [reflexivity|]).
  - right. split; [reflexivity|assumption].
  - left. lia.
Qed.






(** [get] raises only what the factory raised. *)
Lemma get_raise_inv (w : World) (e : exn) :
  fst (get drv w) = Raise e ->
  pool w = [] /\ size w < maxsize w /\ connect drv (connects w) = inl e.
Proof.
  intros Hraise.
  destruct (get_cases w) as [(h & q & Hq & E)|[(Hq & Hfull & E)|(Hq & Hroom & E)]];
    try (rewrite E in Hraise; discriminate).
  destruct (create_cases (reserve w)) as [(h & c & _ & E')|(e' & Hc & E')];
    rewrite E, E' in Hraise; simpl in Hraise; [discriminate|].
  injection Hraise as ->. auto.
Qed.

(** C8.  When [get] goes to the factory (the idle queue is empty and
    [size < maxsize]) and the factory raises [e]: [get] raises [e], the
    factory was invoked once, [size] is back to its value before the call,
    and the idle queue, the connection objects and the calls made are as
    before; the next [get] goes to the factory again. *)
Theorem factory_failure_releases_slot (w : World) (e : exn) :
  pool w = [] ->
  size w < maxsize w ->
  connect drv (connects w) = inl e ->
  fst (get drv w) = Raise e /\
  size (snd (get drv w)) = size w /\
  pool (snd (get drv w)) = pool w /\
  heap (snd (get drv w)) = heap w /\
  trace (snd (get drv w)) = trace w /\
  connects (snd (get drv w)) = S (connects w) /\
  get drv (snd (get drv w)) =
    create drv (reserve (snd (get drv w))).
Proof.
  intros Hq Hroom Hc.
  rewrite (get_creates w Hroom Hq).
  destruct (create_cases (reserve w)) as [(h & c & Hc' & _)|(e' & Hc' & E)];
    simpl in Hc'; rewrite Hc in Hc'; [discriminate|].
  injection Hc' as <-. rewrite E. simpl.
  repeat split; auto; try lia.
  apply get_creates; simpl; [lia|assumption].
Qed.

(** ** Draining the idle queue *)

Lemma call_eq (m : Conn -> option exn * Conn) (ev : event) (h : handle)
    (w : World) (r : option exn) (c : Conn) :
  m (heap w h) = (r, c) -> call m ev h w = (r, log ev (set_conn h c w)).
Proof. intros E. unfold call. now rewrite E. Qed.

Lemma closeall_loop_size (q : list handle) :
  forall w, size (snd (closeall_loop drv q w)) = size w.
Proof.
  induction q as [|h q IH]; intros w; simpl; [reflexivity|].
  unfold call. destruct (close drv _) as [[e|] c]; simpl.
  - destruct (is_Exception e); [now rewrite IH|reflexivity].
  - now rewrite IH.
Qed.

(** When [close] raises nothing but [Exception]s, the loop runs to the end
    of the queue and closes every item once, oldest first. *)
Lemma closeall_loop_drains (q : list handle) :
  (forall c x c', close drv c = (Some x, c') -> is_Exception x = true) ->
  forall w,
    fst (closeall_loop drv q w) = None /\
    pool (snd (closeall_loop drv q w)) = match q with [] => pool w | _ => [] end /\
    trace (snd (closeall_loop drv q w)) = trace w ++ map EvClose q.
Proof.
  intros Hclose. induction q as [|h q IH]; intros w; simpl.
  - now rewrite app_nil_r.
  - unfold call. destruct (close drv _) as [[e|] c] eqn:E; simpl.
    + rewrite (Hclose _ _ _ E).
      destruct (IH (log (EvClose h) (set_conn h c (set_pool q w))))
        as (Hr & Hp & Ht).
      rewrite Hr, Hp, Ht. simpl. rewrite <- app_assoc. simpl.
      now destruct q.
    + destruct (IH (log (EvClose h) (set_conn h c (set_pool q w))))
        as (Hr & Hp & Ht).
      rewrite Hr, Hp, Ht. simpl. rewrite <- app_assoc. simpl.
      now destruct q.
Qed.

(** ** Leaving the scope *)

Lemma finally_size (conn : option handle) (level : option Z)
    (pending : option exn) (w : World) :
  size (snd (finally_clause drv conn level pending w)) = size w.
Proof.
  unfold finally_clause, call.
  destruct conn as [h|]; [|reflexivity].
  destruct (connected _); [|reflexivity].
  destruct level as [l|]; [|reflexivity].
  destruct (set_isolation_level drv l _) as [[e|] c]; reflexivity.
Qed.

Lemma except_size (e : exn) (h : handle) (level : option Z) (w : World) :
  size (snd (except_clause drv e h level w)) = size w.
Proof.
  unfold except_clause. destruct (negb (connected (heap w h))).
  - pose proof (closeall_loop_size (pool w) w) as Hs. unfold closeall.
    destruct (closeall_loop drv (pool w) w) as [[e'|] w1]; simpl in Hs;
      cbv beta iota; now rewrite finally_size.
  - unfold _rollback, call. destruct (rollback drv _) as [[e'|] c];
      [destruct (handle_error drv e')|]; cbv beta iota;
      now rewrite finally_size.
Qed.

Lemma else_size (h : handle) (level : option Z) (w : World) :
  size (snd (else_clause drv h level w)) = size w.
Proof.
  unfold else_clause. destruct (negb (connected (heap w h))).
  - apply finally_size.
  - unfold call. destruct (commit drv _) as [r c]. cbv beta iota.
    now rewrite finally_size.
Qed.

Lemma leave_size (h : handle) (level : option Z) (raised : option exn)
    (w : World) :
  size (snd (leave drv h level raised w)) = size w.
Proof. destruct raised; [apply except_size|apply else_size]. Qed.

(** C10.  Nothing that destroys a connection lowers [size]: [closeall]
    leaves it as it is, and so does every way out of a transaction scope
    (commit, rollback, abandoning the handle, draining the queue), as does
    [put].  [get] never returns with a smaller [size]; the one decrement,
    in lines 32-37, undoes the reservation of a factory call that raised.  So
    a pool whose [size] has reached [maxsize] and whose queue is empty makes
    [get] block, however many of its connections were destroyed. *)
Theorem destroying_never_decrements_size :
  (forall w, size (snd (closeall drv w)) = size w) /\
  (forall h level raised w, size (snd (leave drv h level raised w)) = size w) /\
  (forall item w, size (put item w) = size w) /\
  (forall w, size w <= size (snd (get drv w))) /\
  (forall w, size (snd (create drv w)) < size w ->
             exists e, connect drv (connects w) = inl e /\
                       fst (create drv w) = Raise e) /\
  (forall w, maxsize w <= size w -> pool w = [] -> get drv w = (Blocked, w)).
Proof.
  repeat split.
  - intros w. apply closeall_loop_size.
  - apply leave_size.
  - intros w. destruct (get_counters w) as [_ [Hs|[Hs _]]]; lia.
  - intros w Hlt.
    destruct (create_cases w) as [(h & c & _ & E)|(e & Hc & E)];
      rewrite E in *; simpl in *; [lia|].
    now exists e.
  - apply get_full_empty.
Qed.

(** The scope whose generator yielded [h] and whose block ended in [raised]
    finishes as [leave] says. *)
Lemma connection_eq (level level' : option Z) (body : block)
    (w0 w1 w2 : World) (h : handle) (raised : option exn) :
  enter drv level w0 = Yielded h level' w1 ->
  body h w1 = (raised, w2) ->
  connection drv level body w0 = leave drv h level' raised w2.
Proof. intros He Hb. unfold connection. now rewrite He, Hb. Qed.

(** Rewrites a scope, given how it was entered and how its block ended,
    into the clauses that run on the way out. *)
Ltac leave_scope He Hb :=
  cbv zeta;
  rewrite (connection_eq _ _ _ _ _ _ _ _ He Hb);
  unfold leave.

(** The [except] clause on a connection that is down. *)
Lemma except_disconnected (e : exn) (h : handle) (level : option Z)
    (w : World) :
  connected (heap w h) = false ->
  except_clause drv e h level w =
    match fst (closeall drv w) with
    | Some e' => (Raise e', snd (closeall drv w))
    | None => (Raise e, snd (closeall drv w))
    end.
Proof.
  intros Hc. unfold except_clause. rewrite Hc. simpl.
  destruct (closeall drv w) as [[e'|] w1]; reflexivity.
Qed.

(** The [except] clause on a connection that is up. *)
Lemma except_connected (e : exn) (h : handle) (level : option Z) (w : World)
    (r : option exn) (c : Conn) :
  connected (heap w h) = true ->
  rollback drv (heap w h) = (r, c) ->
  except_clause drv e h level w =
    match r with
    | Some e' =>
        match handle_error drv e' with
        | Some x =>
            finally_clause drv (Some h) level (Some x)
              (log (EvHandleError h e') (log (EvRollback h) (set_conn h c w)))
        | None =>
            (Raise e,
             log (EvHandleError h e') (log (EvRollback h) (set_conn h c w)))
        end
    | None =>
        finally_clause drv (Some h) level (Some e)
                       (log (EvRollback h) (set_conn h c w))
    end.
Proof.
  intros Hc Hr. unfold except_clause, _rollback. rewrite Hc. simpl.
  rewrite (call_eq (rollback drv) (EvRollback h) h w r c Hr).
  destruct r as [e'|]; [|reflexivity].
  destruct (handle_error drv e'); reflexivity.
Qed.

(** The [else] clause on a connection that is down: nothing is called, the
    exception built on line 67 is raised, and [finally] leaves the handle
    out of the queue. *)
Lemma else_disconnected (h : handle) (level : option Z) (w : World) :
  connected (heap w h) = false ->
  else_clause drv h level w = (Raise (new_OperationalError h), w).
Proof.
  intros Hc. unfold else_clause, finally_clause. now rewrite Hc.
Qed.

(** The [finally] clause on a connection that is up, when the call that
    resets the isolation level, if there is one, returns. *)
Lemma finally_connected (h : handle) (level : option Z)
    (pending : option exn) (w : World) :
  connected (heap w h) = true ->
  (forall l, level = Some l ->
             fst (set_isolation_level drv l (heap w h)) = None) ->
  fst (finally_clause drv (Some h) level pending w) = completion pending /\
  pool (snd (finally_clause drv (Some h) level pending w)) = pool w ++ [h] /\
  trace (snd (finally_clause drv (Some h) level pending w)) =
    trace w ++ match level with
               | Some l => [EvSetIsolationLevel h l]
               | None => []
               end /\
  size (snd (finally_clause drv (Some h) level pending w)) = size w /\
  maxsize (snd (finally_clause drv (Some h) level pending w)) = maxsize w /\
  connects (snd (finally_clause drv (Some h) level pending w)) = connects w.
Proof.
  intros Hc Hl. unfold finally_clause. rewrite Hc.
  destruct level as [l|]; simpl.
  - specialize (Hl l eq_refl). unfold call.
    destruct (set_isolation_level drv l (heap w h)) as [r c].
    simpl in Hl. subst r. simpl. repeat split.
  - rewrite app_nil_r. repeat split.
Qed.

(** C6.  The block raises and the connection reports not connected: the
    block's exception propagates, [rollback] is not called, and [closeall]
    empties the idle queue, calling [close] once on every idle connection,
    oldest first, whether or not a [close] fails with an [Exception]; the
    scope's handle is not put back, and [size] stays. *)
Theorem disconnected_fault_drains_queue (level level' : option Z)
    (body : block) (w0 w1 w2 : World) (h : handle) (e : exn) :
  enter drv level w0 = Yielded h level' w1 ->
  body h w1 = (Some e, w2) ->
  connected (heap w2 h) = false ->
  (forall c x c', close drv c = (Some x, c') -> is_Exception x = true) ->
  let w' := snd (connection drv level body w0) in
  fst (connection drv level body w0) = Raise e /\
  trace w' = trace w2 ++ map EvClose (pool w2) /\
  pool w' = [] /\
  size w' = size w2.
Proof.
  intros He Hb Hc Hclose. leave_scope He Hb.
  rewrite (except_disconnected e h level' w2 Hc).
  pose proof (closeall_loop_size (pool w2) w2) as Hs.
  destruct (closeall_loop_drains (pool w2) Hclose w2) as (Hr & Hp & Ht).
  unfold closeall. rewrite Hr. simpl.
  repeat split; auto. rewrite Hp. now destruct (pool w2).
Qed.

(** C7, as the code has it.  The block raises, the connection is up,
    [rollback] raises and the hub's [handle_error], to which the failure of
    [rollback] goes, returns: the exception that propagates is the block's,
    and the handle is not put back. *)
Theorem rollback_failure_keeps_primary_fault (level level' : option Z)
    (body : block) (w0 w1 w2 : World) (h : handle) (e r : exn) (c : Conn) :
  enter drv level w0 = Yielded h level' w1 ->
  body h w1 = (Some e, w2) ->
  connected (heap w2 h) = true ->
  rollback drv (heap w2 h) = (Some r, c) ->
  handle_error drv r = None ->
  let w' := snd (connection drv level body w0) in
  fst (connection drv level body w0) = Raise e /\
  trace w' = trace w2 ++ [EvRollback h; EvHandleError h r] /\
  pool w' = pool w2 /\
  size w' = size w2.
Proof.
  intros He Hb Hc Hr Hhub. leave_scope He Hb.
  rewrite (except_connected e h level' w2 (Some r) c Hc Hr), Hhub. simpl.
  repeat split. now rewrite <- app_assoc.
Qed.

(** The [else] clause on a connection that is up. *)
Lemma else_connected (h : handle) (level : option Z) (w : World)
    (r : option exn) (c : Conn) :
  connected (heap w h) = true ->
  commit drv (heap w h) = (r, c) ->
  else_clause drv h level w =
    finally_clause drv (Some h) level r (log (EvCommit h) (set_conn h c w)).
Proof.
  intros Hc Hr. unfold else_clause. rewrite Hc. simpl.
  now rewrite (call_eq (commit drv) (EvCommit h) h w r c Hr).
Qed.

Lemma heap_after_call (ev : event) (h : handle) (c : Conn) (w : World) :
  heap (log ev (set_conn h c w)) h = c.
Proof. simpl. now rewrite Nat.eqb_refl. Qed.

(** Acquisitions that find idle handles take them oldest first. *)
Lemma acquire_idle_prefix (q rest : list handle) :
  forall w, pool w = q ++ rest ->
    run drv (repeat Acquire (List.length q)) w = set_pool rest w.
Proof.
  unfold run. induction q as [|a q IH]; intros w Hq; simpl in *.
  - destruct w. simpl in *. now subst.
  - rewrite (get_idle w a (q ++ rest) Hq). simpl. now rewrite IH.
Qed.

(** C5, as the code has it.  The block raises, the connection is up,
    [rollback] returns and leaves it up, and the call that resets the
    isolation level, if the scope has one to make, returns: [rollback] is
    called once, [commit] is not called, the handle goes to the back of the
    idle queue, and the block's exception propagates. *)
Theorem fault_rolls_back_and_releases (level level' : option Z)
    (body : block) (w0 w1 w2 : World) (h : handle) (e : exn) (c : Conn) :
  enter drv level w0 = Yielded h level' w1 ->
  body h w1 = (Some e, w2) ->
  connected (heap w2 h) = true ->
  rollback drv (heap w2 h) = (None, c) ->
  connected c = true ->
  (forall l, level' = Some l -> fst (set_isolation_level drv l c) = None) ->
  let w' := snd (connection drv level body w0) in
  fst (connection drv level body w0) = Raise e /\
  trace w' = trace w2 ++ EvRollback h ::
               match level' with
               | Some l => [EvSetIsolationLevel h l]
               | None => []
               end /\
  pool w' = pool w2 ++ [h] /\
  size w' = size w2.
Proof.
  intros He Hb Hc Hr Hc' Hl. leave_scope He Hb.
  rewrite (except_connected e h level' w2 None c Hc Hr).
  destruct (finally_connected h level' (Some e)
              (log (EvRollback h) (set_conn h c w2)))
    as (Hres & Hp & Ht & Hs & _).
  - now rewrite heap_after_call.
  - now rewrite heap_after_call.
  - rewrite Hres, Hp, Ht, Hs. simpl. rewrite <- app_assoc. auto.
Qed.

(** C9, as the code has it.  The block returns and the connection is up,
    and still up after [commit], and the call that resets the isolation
    level, if the scope has one to make, returns: [commit] is called once,
    [rollback] is not called, and the handle goes to the back of the idle
    queue.  Once the
    acquisitions that follow have taken the handles that were idle before
    it, the next acquisition returns this handle, from the queue and without
    creating a connection. *)
Theorem commit_then_release (level level' : option Z) (body : block)
    (w0 w1 w2 : World) (h : handle) (r : option exn) (c : Conn) :
  enter drv level w0 = Yielded h level' w1 ->
  body h w1 = (None, w2) ->
  connected (heap w2 h) = true ->
  commit drv (heap w2 h) = (r, c) ->
  connected c = true ->
  (forall l, level' = Some l -> fst (set_isolation_level drv l c) = None) ->
  let w' := snd (connection drv level body w0) in
  fst (connection drv level body w0) = completion r /\
  trace w' = trace w2 ++ EvCommit h ::
               match level' with
               | Some l => [EvSetIsolationLevel h l]
               | None => []
               end /\
  pool w' = pool w2 ++ [h] /\
  get drv (run drv (repeat Acquire (List.length (pool w2))) w') =
    (Return h, set_pool [] w').
Proof.
  intros He Hb Hc Hr Hc' Hl. leave_scope He Hb.
  rewrite (else_connected h level' w2 r c Hc Hr).
  destruct (finally_connected h level' r
              (log (EvCommit h) (set_conn h c w2)))
    as (Hres & Hp & Ht & _).
  - now rewrite heap_after_call.
  - now rewrite heap_after_call.
  - change (pool (log (EvCommit h) (set_conn h c w2))) with (pool w2) in Hp.
    change (trace (log (EvCommit h) (set_conn h c w2)))
      with (trace w2 ++ [EvCommit h]) in Ht.
    rewrite <- app_assoc in Ht.
    split; [exact Hres|]. split; [exact Ht|]. split; [exact Hp|].
    rewrite (acquire_idle_prefix (pool w2) [h] _ Hp).
    exact (get_idle (set_pool [h] _) h [] eq_refl).
Qed.

(** C3, as the code has it.  The block returns and the connection reports
    not connected: the [else] clause raises, and what it raises does not pass
    through the [except] clause.  Nothing is called on any connection
    ([rollback], [commit] and [close] included), the idle queue stays as the
    block left it, and the handle is not put back. *)
Theorem dead_commit_fault_skips_except (level level' : option Z)
    (body : block) (w0 w1 w2 : World) (h : handle) :
  enter drv level w0 = Yielded h level' w1 ->
  body h w1 = (None, w2) ->
  connected (heap w2 h) = false ->
  (exists x, fst (connection drv level body w0) = Raise x) /\
  snd (connection drv level body w0) = w2.
Proof.
  intros He Hb Hc. leave_scope He Hb.
  rewrite (else_disconnected h level' w2 Hc). simpl.
  split; [now exists (new_OperationalError h)|reflexivity].
Qed.

(** C4, what the code does.  The block returns and the connection reports
    not connected: [commit] is not called and the handle is not put back,
    but the exception that reaches the caller is
    [NameError("OperationalError")], because the module binds no such name;
    it is no [OperationalError]. *)
Theorem dead_commit_raises_NameError (level level' : option Z)
    (body : block) (w0 w1 w2 : World) (h : handle) :
  enter drv level w0 = Yielded h level' w1 ->
  body h w1 = (None, w2) ->
  connected (heap w2 h) = false ->
  let w' := snd (connection drv level body w0) in
  fst (connection drv level body w0) = Raise (NameError "OperationalError") /\
  (forall c, fst (connection drv level body w0) <> Raise (OperationalError c)) /\
  trace w' = trace w2 /\
  pool w' = pool w2.
Proof.
  intros He Hb Hc. leave_scope He Hb.
  rewrite (else_disconnected h level' w2 Hc). simpl.
  repeat split. intros c. discriminate.
Qed.

(** ** Isolation-level calls on the way out *)

Lemma issued_trans (w w1 w2 : World) (evs1 evs2 : list event) :
  issued w w1 evs1 -> issued w1 w2 evs2 -> issued w w2 (evs1 ++ evs2).
Proof.
  unfold issued. intros H1 H2. now rewrite H2, H1, app_assoc.
Qed.

Lemma closeall_loop_issued (q : list handle) :
  forall w, exists evs,
    issued w (snd (closeall_loop drv q w)) evs /\
    forall h' x, ~ In (EvSetIsolationLevel h' x) evs.
Proof.
  induction q as [|h q IH]; intros w; simpl.
  - exists []. split; [unfold issued; now rewrite app_nil_r|intros h' x []].
  - unfold call. destruct (close drv _) as [r c]. cbv beta iota.
    set (w1 := log (EvClose h) (set_conn h c (set_pool q w))).
    assert (Hstep : issued w w1 [EvClose h]) by reflexivity.
    destruct (IH w1) as (evs & Hevs & Hno).
    assert (Hall : forall h' x,
               ~ In (EvSetIsolationLevel h' x) ([EvClose h] ++ evs)).
    { intros h' x [Hin|Hin]; [discriminate|]. exact (Hno h' x Hin). }
    destruct r as [e|]; [destruct (is_Exception e)|].
    + exists ([EvClose h] ++ evs). eauto using issued_trans.
    + exists [EvClose h]. split; [exact Hstep|].
      intros h' x [Hin|[]]. discriminate.
    + exists ([EvClose h] ++ evs). eauto using issued_trans.
Qed.

Lemma finally_issued (conn : option handle) (level : option Z)
    (pending : option exn) (w : World) :
  exists evs,
    issued w (snd (finally_clause drv conn level pending w)) evs /\
    forall h' x, In (EvSetIsolationLevel h' x) evs ->
                 conn = Some h' /\ level = Some x.
Proof.
  assert (Hnone : forall w', trace w' = trace w ->
            exists evs, issued w w' evs /\
              forall h' x, In (EvSetIsolationLevel h' x) evs ->
                           conn = Some h' /\ level = Some x).
  { intros w' Hw'. exists []. split; [|intros h' x []].
    unfold issued. now rewrite app_nil_r. }
  unfold finally_clause.
  destruct conn as [h|]; [|now apply Hnone].
  destruct (connected _); [|now apply Hnone].
  destruct level as [l|]; [|now apply Hnone].
  unfold call. destruct (set_isolation_level drv l _) as [[e|] c];
    exists [EvSetIsolationLevel h l]; (split; [reflexivity|]);
    intros h' x [[= <- <-]|[]]; auto.
Qed.

(** Whatever way the scope is left, [set_isolation_level] is called on no
    other connection than the scope's and with no other level than the one
    the generator's variable holds. *)
Lemma leave_issued (h : handle) (level : option Z) (raised : option exn)
    (w : World) :
  exists evs,
    issued w (snd (leave drv h level raised w)) evs /\
    forall h' x, In (EvSetIsolationLevel h' x) evs ->
                 h' = h /\ level = Some x.
Proof.
  destruct raised as [e|]; simpl.
  - unfold except_clause. destruct (negb (connected (heap w h))).
    + unfold closeall.
      destruct (closeall_loop_issued (pool w) w) as (evs & Hevs & Hno).
      exists evs.
      destruct (closeall_loop drv (pool w) w) as [[e'|] w1]; simpl in *;
        (split; [exact Hevs|]); intros h' x Hin; now destruct (Hno h' x).
    + unfold _rollback, call. destruct (rollback drv _) as [r c].
      cbv beta iota.
      set (w1 := log (EvRollback h) (set_conn h c w)).
      assert (Hstep : issued w w1 [EvRollback h]) by reflexivity.
      destruct r as [e'|]; cbv beta iota.
      * set (w2 := log (EvHandleError h e') w1).
        assert (Hstep2 : issued w w2 [EvRollback h; EvHandleError h e']).
        { unfold issued. simpl. now rewrite <- app_assoc. }
        destruct (handle_error drv e') as [x|]; cbv beta iota.
        -- destruct (finally_issued (Some h) level (Some x) w2)
             as (evs & Hevs & Hlev).
           exists ([EvRollback h; EvHandleError h e'] ++ evs).
           split; [eauto using issued_trans|].
           intros h' x0 [Hin|[Hin|Hin]]; try discriminate.
           destruct (Hlev h' x0 Hin) as [[= ->] ->]. auto.
        -- exists [EvRollback h; EvHandleError h e'].
           split; [exact Hstep2|].
           intros h' x [Hin|[Hin|[]]]; discriminate.
      * destruct (finally_issued (Some h) level (Some e) w1)
          as (evs & Hevs & Hlev).
        exists ([EvRollback h] ++ evs). split; [eauto using issued_trans|].
        intros h' x [Hin|Hin]; [discriminate|].
        destruct (Hlev h' x Hin) as [[= ->] ->]. auto.
  - unfold else_clause. destruct (negb (connected (heap w h))).
    + destruct (finally_issued (Some h) level
                  (Some (new_OperationalError h)) w) as (evs & Hevs & Hlev).
      exists evs. split; [exact Hevs|]. intros h' x Hin.
      destruct (Hlev h' x Hin) as [[= ->] ->]. auto.
    + unfold call. destruct (commit drv _) as [r c]. cbv beta iota.
      set (w1 := log (EvCommit h) (set_conn h c w)).
      assert (Hstep : issued w w1 [EvCommit h]) by reflexivity.
      destruct (finally_issued (Some h) level r w1) as (evs & Hevs & Hlev).
      exists ([EvCommit h] ++ evs). split; [eauto using issued_trans|].
      intros h' x [Hin|Hin]; [discriminate|].
      destruct (Hlev h' x Hin) as [[= ->] ->]. auto.
Qed.

(** The override that the generator keeps is the level that was asked for,
    and the object's level was another one when it was applied. *)
Lemma enter_keeps_requested_level (l l' : Z) (w0 w1 : World) (h : handle) :
  enter drv (Some l) w0 = Yielded h (Some l') w1 ->
  l' = l /\
  isolation_level (heap (snd (get drv w0)) h) <> l /\
  trace w1 = trace (snd (get drv w0)) ++ [EvSetIsolationLevel h l].
Proof.
  unfold enter. destruct (get drv w0) as [[h0|e|] wg]; try discriminate.
  simpl. destruct (isolation_level (heap wg h0) =? l) eqn:Hl; [discriminate|].
  unfold call. destruct (set_isolation_level drv l (heap wg h0)) as [[e|] c].
  - destruct (except_clause _ _ _ _ _). discriminate.
  - intros [= <- <- <-]. apply Z.eqb_neq in Hl. auto.
Qed.

(** So a scope that overrides the level never calls [set_isolation_level]
    with the level the connection had when it was acquired. *)
Lemma leave_never_restores (l l' : Z) (w0 w1 w2 : World) (h : handle)
    (raised : option exn) :
  enter drv (Some l) w0 = Yielded h (Some l') w1 ->
  exists evs,
    issued w2 (snd (leave drv h (Some l') raised w2)) evs /\
    forall h' x, In (EvSetIsolationLevel h' x) evs ->
                 x = l /\ x <> isolation_level (heap (snd (get drv w0)) h).
Proof.
  intros He. destruct (enter_keeps_requested_level l l' w0 w1 h He)
    as (-> & Hne & _).
  destruct (leave_issued h (Some l) raised w2) as (evs & Hevs & Hlev).
  exists evs. split; [exact Hevs|]. intros h' x Hin.
  destruct (Hlev h' x Hin) as [_ [= ->]]. auto.
Qed.

End Properties.

(** * Further properties of the pool *)

Section PoolFacts.

Variable drv : Driver.

(** ** The idle queue *)

Lemma run_release (hs : list handle) :
  forall w, run drv (map Release hs) w = set_pool (pool w ++ hs) w.
Proof.
  unfold run. induction hs as [|h hs IH]; intros w; simpl.
  - rewrite app_nil_r. now destruct w.
  - rewrite IH. unfold put, set_pool. simpl. now rewrite <- app_assoc.
Qed.

Lemma acquire_n_idle (q : list handle) :
  forall w,
    acquire_n drv (List.length q) (set_pool q w) =
      (map Return q, set_pool [] w).
Proof.
  induction q as [|h q IH]; intros w; simpl; [reflexivity|].
  rewrite (get_idle drv (set_pool (h :: q) w) h q eq_refl).
  change (set_pool q (set_pool (h :: q) w)) with (set_pool q w).
  now rewrite IH.
Qed.

(** X1.  Handles released to an empty queue come back in the order of their
    release: after the releases, as many acquisitions return exactly those
    handles, none of them from the factory, and the pool is as it was.  [put]
    does not look at what it is given: a handle released twice is handed out
    twice. *)
Theorem released_handles_return_in_order (hs : list handle) (w : World) :
  pool w = [] ->
  acquire_n drv (List.length hs) (run drv (map Release hs) w) =
    (map Return hs, w).
Proof.
  intros Hq. rewrite run_release, Hq. simpl.
  rewrite acquire_n_idle. f_equal. destruct w; simpl in *. now subst.
Qed.

(** ** The counters *)

Lemma step_counts (w : World) (o : op) :
  0 <= size w ->
  size w = Z.of_nat (built drv (connects w)) ->
  0 <= size (step drv w o) /\
  size (step drv w o) = Z.of_nat (built drv (connects (step drv w o))).
Proof.
  intros Hpos Hbuilt. destruct o as [|h]; simpl; [|auto].
  destruct (get_cases drv w)
    as [(h & q & _ & E)|[(_ & _ & E)|(_ & _ & E)]]; rewrite E; simpl; auto.
  unfold create. simpl.
  destruct (connect drv (connects w)) as [e|[h c]] eqn:Hc; simpl;
    rewrite Hc; split; lia.
Qed.

(** X2.  On a pool that starts empty, whatever its [maxsize], [size] is
    never negative and is the number of connection objects the factory has
    built so far: a failed invocation leaves no trace in it, and no release
    or acquisition of an idle handle changes it. *)
Theorem size_counts_built_connections (N : Z) (objects : handle -> Conn)
    (ops : list op) :
  0 <= size (run drv ops (init N objects)) /\
  size (run drv ops (init N objects)) =
    Z.of_nat (built drv (connects (run drv ops (init N objects)))).
Proof.
  assert (H : forall w, 0 <= size w ->
            size w = Z.of_nat (built drv (connects w)) ->
            0 <= size (run drv ops w) /\
            size (run drv ops w) = Z.of_nat (built drv (connects (run drv ops w)))).
  { unfold run. induction ops as [|o ops IH]; intros w Hpos Hb; simpl; [auto|].
    destruct (step_counts w o Hpos Hb) as [Hpos' Hb']. now apply IH. }
  apply H; simpl; lia.
Qed.

Lemma act_creating (s : World * nat) (a : action) :
  Z.of_nat (snd s) <= size (fst s) ->
  Z.of_nat (snd (act drv s a)) <= size (fst (act drv s a)).
Proof.
  destruct s as [w creating]. simpl. intros Hle.
  destruct a as [| |h]; simpl; [| |assumption].
  - destruct ((maxsize w <=? size w) || negb (Nat.eqb (List.length (pool w)) 0));
      simpl; [|lia].
    unfold queue_get. now destruct (pool w).
  - destruct creating as [|k]; simpl; [assumption|].
    destruct (create_cases drv w) as [(h & c & _ & E)|(e & _ & E)];
      rewrite E; simpl; lia.
Qed.

(** X3.  When greenlets interleave at the factory call, the number of
    greenlets that are inside the factory never exceeds [size]: every one of
    them holds a reserved slot, so [size] does not go below zero when their
    factory calls fail. *)
Theorem creating_greenlets_hold_slots (N : Z) (objects : handle -> Conn)
    (acts : list action) :
  Z.of_nat (snd (schedule drv acts (init N objects))) <=
    size (fst (schedule drv acts (init N objects))).
Proof.
  unfold schedule.
  assert (H : forall s, Z.of_nat (snd s) <= size (fst s) ->
            Z.of_nat (snd (fold_left (act drv) acts s)) <=
              size (fst (fold_left (act drv) acts s))).
  { induction acts as [|a acts IH]; intros s Hle; simpl; [assumption|].
    apply IH. now apply act_creating. }
  apply H. simpl. lia.
Qed.

Lemma step_saturated (w : World) (o : op) :
  maxsize w <= size w ->
  maxsize (step drv w o) = maxsize w /\
  size (step drv w o) = size w /\
  connects (step drv w o) = connects w /\
  trace (step drv w o) = trace w.
Proof.
  intros Hfull. destruct o as [|h]; simpl; [|auto].
  destruct (get_cases drv w)
    as [(h & q & _ & E)|[(_ & _ & E)|(_ & Hroom & _)]];
    [rewrite E; simpl; auto .. | lia].
Qed.

Lemma saturated_run (w : World) (ops : list op) :
  maxsize w <= size w ->
  connects (run drv ops w) = connects w /\
  size (run drv ops w) = size w /\
  maxsize (run drv ops w) = maxsize w.
Proof.
  unfold run. revert w. induction ops as [|o ops IH]; intros w Hfull; simpl;
    [auto|].
  destruct (step_saturated w o Hfull) as (Hm & Hs & Hc & _).
  destruct (IH (step drv w o)) as (Hc' & Hs' & Hm'); [lia|].
  rewrite Hc', Hs', Hm'. auto.
Qed.

(** X4.  Once [size] has reached [maxsize], no sequence of [get] and [put]
    calls invokes the factory again or changes [size]: a pool at capacity
    only ever hands out what is released to it.  With [maxsize <= 0] this
    holds from the start. *)
Theorem no_creation_at_capacity (w : World) (ops : list op) :
  maxsize w <= size w ->
  connects (run drv ops w) = connects w /\
  size (run drv ops w) = size w /\
  maxsize (run drv ops w) = maxsize w.
Proof. exact (saturated_run w ops). Qed.

(** ** [closeall] *)

Lemma closeall_loop_stops (q : list handle) :
  forall w, pool w = q ->
    exists closed,
      trace (snd (closeall_loop drv q w)) = trace w ++ map EvClose closed /\
      q = closed ++ pool (snd (closeall_loop drv q w)) /\
      match fst (closeall_loop drv q w) with
      | None => pool (snd (closeall_loop drv q w)) = []
      | Some x => is_Exception x = false /\ closed <> []
      end.
Proof.
  induction q as [|h q IH]; intros w Hq; simpl.
  - exists []. simpl. now rewrite app_nil_r, Hq.
  - unfold call. destruct (close drv _) as [r c]. cbv beta iota.
    set (w1 := log (EvClose h) (set_conn h c (set_pool q w))).
    destruct (IH w1 eq_refl) as (closed & Ht & Hp & Hr).
    assert (Hgo : exists closed0,
              trace (snd (closeall_loop drv q w1)) =
                trace w ++ map EvClose closed0 /\
              h :: q = closed0 ++ pool (snd (closeall_loop drv q w1)) /\
              match fst (closeall_loop drv q w1) with
              | None => pool (snd (closeall_loop drv q w1)) = []
              | Some x => is_Exception x = false /\ closed0 <> []
              end).
    { exists (h :: closed). split; [|split].
      - rewrite Ht. simpl. now rewrite <- app_assoc.
      - simpl. now rewrite <- Hp.
      - destruct (fst (closeall_loop drv q w1)); [|assumption].
        split; [apply Hr|discriminate]. }
    destruct r as [e|]; [|exact Hgo].
    destruct (is_Exception e) eqn:He; [exact Hgo|].
    exists [h]. simpl. repeat split; auto. discriminate.
Qed.

(** X5.  [closeall] closes idle connections from the oldest on and takes
    each one out of the queue before closing it.  It either returns with the
    queue empty, or raises what a [close] raised, and that is never an
    [Exception]: then the connections closed so far, the failing one
    included, are out of the queue and the rest are still idle and
    unclosed. *)
Theorem closeall_stops_only_at_base_exception (w : World) :
  exists closed,
    trace (snd (closeall drv w)) = trace w ++ map EvClose closed /\
    pool w = closed ++ pool (snd (closeall drv w)) /\
    match fst (closeall drv w) with
    | None => pool (snd (closeall drv w)) = []
    | Some x => is_Exception x = false /\ closed <> []
    end.
Proof. exact (closeall_loop_stops (pool w) w eq_refl). Qed.

Lemma closeall_loop_frame (q : list handle) :
  forall w,
    maxsize (snd (closeall_loop drv q w)) = maxsize w /\
    connects (snd (closeall_loop drv q w)) = connects w /\
    forall h, ~ In h q -> heap (snd (closeall_loop drv q w)) h = heap w h.
Proof.
  induction q as [|h0 q IH]; intros w; simpl; [auto|].
  unfold call. destruct (close drv _) as [r c]. cbv beta iota.
  set (w1 := log (EvClose h0) (set_conn h0 c (set_pool q w))).
  assert (Hstep : forall h, h0 <> h -> heap w1 h = heap w h).
  { intros h Hne. simpl. destruct (Nat.eqb_spec h h0); congruence. }
  destruct (IH w1) as (Hm & Hc & Hh).
  assert (Hgo : maxsize (snd (closeall_loop drv q w1)) = maxsize w /\
                connects (snd (closeall_loop drv q w1)) = connects w /\
                forall h, ~ (h0 = h \/ In h q) ->
                          heap (snd (closeall_loop drv q w1)) h = heap w h).
  { repeat split; auto. intros h Hn. rewrite Hh, Hstep; tauto. }
  destruct r as [e|]; [|exact Hgo].
  destruct (is_Exception e); [exact Hgo|].
  simpl. repeat split. intros h Hn.
  destruct (Nat.eqb_spec h h0); [|reflexivity]. subst. tauto.
Qed.

(** X6.  [closeall] touches the idle connections only: a connection that is
    not in the queue (one that is checked out) keeps its state, and the
    capacity and the factory's count stay as they are. *)
Theorem closeall_spares_checked_out (w : World) :
  maxsize (snd (closeall drv w)) = maxsize w /\
  connects (snd (closeall drv w)) = connects w /\
  forall h, ~ In h (pool w) -> heap (snd (closeall drv w)) h = heap w h.
Proof. exact (closeall_loop_frame (pool w) w). Qed.

End PoolFacts.

(** * Further properties of the transaction scope *)

Section ScopeFacts.

Variable drv : Driver.

(** ** What the way out touches *)

Lemma finally_frame (conn : option handle) (level : option Z)
    (pending : option exn) (w : World) :
  maxsize (snd (finally_clause drv conn level pending w)) = maxsize w /\
  connects (snd (finally_clause drv conn level pending w)) = connects w /\
  forall h, conn <> Some h ->
            heap (snd (finally_clause drv conn level pending w)) h = heap w h.
Proof.
  unfold finally_clause, call.
  destruct conn as [h0|]; [|auto].
  destruct (connected _); [|auto].
  destruct level as [l|]; [|auto].
  destruct (set_isolation_level drv l _) as [[e|] c]; simpl;
    repeat split; intros h Hne; destruct (Nat.eqb_spec h h0); congruence.
Qed.

Lemma leave_frame (h : handle) (level : option Z) (raised : option exn)
    (w : World) :
  maxsize (snd (leave drv h level raised w)) = maxsize w /\
  connects (snd (leave drv h level raised w)) = connects w /\
  forall h', h' <> h -> ~ In h' (pool w) ->
             heap (snd (leave drv h level raised w)) h' = heap w h'.
Proof.
  assert (Hcall : forall ev c h', h' <> h ->
            heap (log ev (set_conn h c w)) h' = heap w h').
  { intros ev c h' Hne. simpl. destruct (Nat.eqb_spec h' h); congruence. }
  destruct raised as [e|]; simpl.
  - unfold except_clause. destruct (negb (connected (heap w h))).
    + destruct (closeall_loop_frame drv (pool w) w) as (Hm & Hc & Hh).
      unfold closeall.
      destruct (closeall_loop drv (pool w) w) as [[e'|] w1]; simpl in *; auto.
    + unfold _rollback, call. destruct (rollback drv _) as [[e'|] c];
        [destruct (handle_error drv e') as [x|]|]; cbv beta iota.
      * destruct (finally_frame (Some h) level (Some x)
                    (log (EvHandleError h e')
                         (log (EvRollback h) (set_conn h c w))))
          as (Hm & Hc & Hh).
        rewrite Hm, Hc. repeat split. intros h' Hne _.
        rewrite Hh by congruence. simpl.
        destruct (Nat.eqb_spec h' h); congruence.
      * simpl. repeat split. intros h' Hne _.
        destruct (Nat.eqb_spec h' h); congruence.
      * destruct (finally_frame (Some h) level (Some e)
                    (log (EvRollback h) (set_conn h c w))) as (Hm & Hc & Hh).
        rewrite Hm, Hc. repeat split. intros h' Hne _.
        rewrite Hh, Hcall; congruence.
  - unfold else_clause. destruct (negb (connected (heap w h))).
    + destruct (finally_frame (Some h) level
                  (Some (new_OperationalError h)) w) as (Hm & Hc & Hh).
      repeat split; auto. intros h' Hne _. apply Hh. congruence.
    + unfold call. destruct (commit drv _) as [r c]. cbv beta iota.
      destruct (finally_frame (Some h) level r
                  (log (EvCommit h) (set_conn h c w))) as (Hm & Hc & Hh).
      rewrite Hm, Hc. repeat split. intros h' Hne _.
      rewrite Hh, Hcall; congruence.
Qed.

(** X7.  However a scope is left, it changes neither the capacity nor the
    factory's count, and it leaves alone every connection that is neither
    its own nor idle when the block ends: connections checked out by other
    callers are not touched. *)
Theorem scope_exit_spares_other_connections (level level' : option Z)
    (body : block) (w0 w1 w2 : World) (h : handle) (raised : option exn) :
  enter drv level w0 = Yielded h level' w1 ->
  body h w1 = (raised, w2) ->
  let w' := snd (connection drv level body w0) in
  maxsize w' = maxsize w2 /\
  connects w' = connects w2 /\
  forall h', h' <> h -> ~ In h' (pool w2) -> heap w' h' = heap w2 h'.
Proof.
  intros He Hb. cbv zeta.
  rewrite (connection_eq drv level level' body w0 w1 w2 h raised He Hb).
  apply leave_frame.
Qed.

(** ** Exactly one way out *)

Lemma finally_no_end (conn : option handle) (level : option Z)
    (pending : option exn) (w : World) :
  exists evs,
    issued w (snd (finally_clause drv conn level pending w)) evs /\
    filter ends_transaction evs = [] /\
    forall h', ~ In (EvClose h') evs.
Proof.
  assert (Hnone : forall w', trace w' = trace w ->
            exists evs, issued w w' evs /\
              filter ends_transaction evs = [] /\
              forall h', ~ In (EvClose h') evs).
  { intros w' Hw'. exists []. unfold issued. rewrite app_nil_r. auto. }
  unfold finally_clause.
  destruct conn as [h|]; [|now apply Hnone].
  destruct (connected _); [|now apply Hnone].
  destruct level as [l|]; [|now apply Hnone].
  unfold call. destruct (set_isolation_level drv l _) as [[e|] c];
    exists [EvSetIsolationLevel h l]; (split; [reflexivity|]);
    (split; [reflexivity|]); intros h' [Hin|[]]; discriminate.
Qed.

Lemma filter_close (q : list handle) :
  filter ends_transaction (map EvClose q) = [].
Proof. induction q; simpl; auto. Qed.

Lemma leave_ends_once (h : handle) (level' : option Z)
    (raised : option exn) (w2 : World) :
  exists evs,
    issued w2 (snd (leave drv h level' raised w2)) evs /\
    (List.length (filter ends_transaction evs) <= 1)%nat /\
    (forall h', In (EvCommit h') evs ->
       h' = h /\ raised = None /\ connected (heap w2 h) = true) /\
    (forall h', In (EvRollback h') evs ->
       h' = h /\ raised <> None /\ connected (heap w2 h) = true) /\
    (forall h', In (EvClose h') evs ->
       In h' (pool w2) /\ raised <> None /\ connected (heap w2 h) = false).
Proof.
  destruct raised as [e|]; simpl.
  - unfold except_clause. destruct (connected (heap w2 h)) eqn:Hc; simpl.
    + unfold _rollback, call. destruct (rollback drv _) as [[e'|] c];
        [destruct (handle_error drv e') as [x|]|]; cbv beta iota.
      * destruct (finally_no_end (Some h) level' (Some x)
                    (log (EvHandleError h e')
                         (log (EvRollback h) (set_conn h c w2))))
          as (evs & Hevs & Hf & Hcl).
        exists ([EvRollback h; EvHandleError h e'] ++ evs). split.
        { apply (issued_trans w2
                   (log (EvHandleError h e')
                        (log (EvRollback h) (set_conn h c w2))));
            [unfold issued; simpl; now rewrite <- app_assoc|exact Hevs]. }
        simpl. rewrite Hf. split; [simpl; lia|].
        assert (Hnot : forall ev, ends_transaction ev = true -> ~ In ev evs).
        { intros ev Hev Hin.
          assert (Hin' : In ev (filter ends_transaction evs))
            by (apply filter_In; auto).
          now rewrite Hf in Hin'. }
        (split; [|split]); intros h' [Hin|[Hin|Hin]]; try discriminate;
          try (injection Hin as <-; repeat split; congruence);
          try (exfalso; eapply Hnot; [|exact Hin]; reflexivity).
        exfalso. exact (Hcl h' Hin).
      * exists [EvRollback h; EvHandleError h e']. split.
        { unfold issued. simpl. now rewrite <- app_assoc. }
        split; [simpl; lia|].
        (split; [|split]); intros h' Hin; simpl in Hin;
          repeat (destruct Hin as [Hin|Hin]; try discriminate; try tauto);
          injection Hin as <-; repeat split; congruence.
      * destruct (finally_no_end (Some h) level' (Some e)
                    (log (EvRollback h) (set_conn h c w2)))
          as (evs & Hevs & Hf & Hcl).
        exists ([EvRollback h] ++ evs). split.
        { apply (issued_trans w2 (log (EvRollback h) (set_conn h c w2)));
            [reflexivity|exact Hevs]. }
        simpl. rewrite Hf. split; [simpl; lia|].
        assert (Hnot : forall ev, ends_transaction ev = true -> ~ In ev evs).
        { intros ev Hev Hin.
          assert (Hin' : In ev (filter ends_transaction evs))
            by (apply filter_In; auto).
          now rewrite Hf in Hin'. }
        (split; [|split]); intros h' [Hin|Hin]; try discriminate;
          try (injection Hin as <-; repeat split; congruence);
          try (exfalso; eapply Hnot; [|exact Hin]; reflexivity).
        exfalso. exact (Hcl h' Hin).
    + destruct (closeall_loop_stops drv (pool w2) w2 eq_refl)
        as (closed & Ht & Hp & _).
      exists (map EvClose closed). unfold closeall.
      destruct (closeall_loop drv (pool w2) w2) as [[e'|] w3]; simpl in *;
        (split; [exact Ht|]); rewrite filter_close;
        (split; [simpl; lia|]);
        (split; [|split]); intros h' Hin; apply in_map_iff in Hin;
        destruct Hin as (x & Hx & Hin); try discriminate;
        injection Hx as <-; repeat split; try congruence;
        rewrite Hp; apply in_or_app; auto.
  - unfold else_clause. destruct (connected (heap w2 h)) eqn:Hc; simpl.
    + unfold call. destruct (commit drv _) as [r c]. cbv beta iota.
      destruct (finally_no_end (Some h) level' r
                  (log (EvCommit h) (set_conn h c w2)))
        as (evs & Hevs & Hf & Hcl).
      exists ([EvCommit h] ++ evs). split.
      { apply (issued_trans w2 (log (EvCommit h) (set_conn h c w2)));
          [reflexivity|exact Hevs]. }
      simpl. rewrite Hf. split; [simpl; lia|].
      assert (Hnot : forall ev, ends_transaction ev = true -> ~ In ev evs).
      { intros ev Hev Hin.
        assert (Hin' : In ev (filter ends_transaction evs))
          by (apply filter_In; auto).
        now rewrite Hf in Hin'. }
      (split; [|split]); intros h' [Hin|Hin]; try discriminate;
        try (injection Hin as <-; repeat split; congruence);
        try (exfalso; eapply Hnot; [|exact Hin]; reflexivity).
      exfalso. exact (Hcl h' Hin).
    + exists []. unfold finally_clause. rewrite Hc. simpl.
      unfold issued. rewrite app_nil_r.
      split; [reflexivity|]. split; [simpl; lia|].
      (split; [|split]); intros h' [].
Qed.

(** X8.  Leaving a scope ends the transaction at most once, and in one way
    only.  [commit] is called only when the block returned and the
    connection is up, [rollback] only when the block raised and the
    connection is up, and [close], on idle connections, only when the block
    raised and the connection is down; each of the first two is called on
    the scope's own connection. *)
Theorem scope_exit_ends_transaction_once (level level' : option Z)
    (body : block) (w0 w1 w2 : World) (h : handle) (raised : option exn) :
  enter drv level w0 = Yielded h level' w1 ->
  body h w1 = (raised, w2) ->
  exists evs,
    issued w2 (snd (connection drv level body w0)) evs /\
    (List.length (filter ends_transaction evs) <= 1)%nat /\
    (forall h', In (EvCommit h') evs ->
       h' = h /\ raised = None /\ connected (heap w2 h) = true) /\
    (forall h', In (EvRollback h') evs ->
       h' = h /\ raised <> None /\ connected (heap w2 h) = true) /\
    (forall h', In (EvClose h') evs ->
       In h' (pool w2) /\ raised <> None /\ connected (heap w2 h) = false).
Proof.
  intros He Hb.
  rewrite (connection_eq drv level level' body w0 w1 w2 h raised He Hb).
  apply leave_ends_once.
Qed.

(** ** What the caller sees *)

Lemma finally_pending_raises (conn : option handle) (level : option Z)
    (e : exn) (w : World) :
  exists x, fst (finally_clause drv conn level (Some e) w) = Raise x.
Proof.
  unfold finally_clause, call.
  destruct conn as [h|]; [|now exists e].
  destruct (connected _); [|now exists e].
  destruct level as [l|]; [|now exists e].
  destruct (set_isolation_level drv l _) as [[e'|] c];
    [now exists e'|now exists e].
Qed.

Lemma except_raises (e : exn) (h : handle) (level : option Z) (w : World) :
  exists x, fst (except_clause drv e h level w) = Raise x.
Proof.
  unfold except_clause. destruct (negb (connected (heap w h))).
  - destruct (closeall drv w) as [[e'|] w1]; apply finally_pending_raises.
  - destruct (_rollback drv h w) as [[x|conn] w1];
      apply finally_pending_raises.
Qed.

(** X9.  A scope whose block raises never ends normally: whatever the
    connection's state and whatever [rollback], [close] or
    [set_isolation_level] do, the [with] statement raises. *)
Theorem raising_block_always_raises (level level' : option Z) (body : block)
    (w0 w1 w2 : World) (h : handle) (e : exn) :
  enter drv level w0 = Yielded h level' w1 ->
  body h w1 = (Some e, w2) ->
  exists x, fst (connection drv level body w0) = Raise x.
Proof.
  intros He Hb.
  rewrite (connection_eq drv level level' body w0 w1 w2 h (Some e) He Hb).
  apply except_raises.
Qed.

(** X10.  In a scope without an isolation-level override, over a driver
    whose [close] raises nothing but [Exception]s and a hub whose
    [handle_error] returns for whatever [rollback] raises, the exception the
    caller sees is the one the block raised, whether the connection is up or
    down and whether [rollback] works or fails. *)
Theorem block_fault_reaches_caller (level : option Z) (body : block)
    (w0 w1 w2 : World) (h : handle) (e : exn) :
  enter drv level w0 = Yielded h None w1 ->
  body h w1 = (Some e, w2) ->
  (forall c x c', close drv c = (Some x, c') -> is_Exception x = true) ->
  (forall c x c', rollback drv c = (Some x, c') -> handle_error drv x = None) ->
  fst (connection drv level body w0) = Raise e.
Proof.
  intros He Hb Hclose Hhub.
  rewrite (connection_eq drv level None body w0 w1 w2 h (Some e) He Hb).
  simpl. unfold except_clause. destruct (negb (connected (heap w2 h))).
  - destruct (closeall_loop_drains drv (pool w2) Hclose w2) as (Hr & _).
    unfold closeall. destruct (closeall_loop drv (pool w2) w2) as [r w3].
    simpl in Hr. now subst r.
  - unfold _rollback, call. destruct (rollback drv _) as [[e'|] c] eqn:Hr;
      [rewrite (Hhub _ _ _ Hr)|]; cbv beta iota; [reflexivity|].
    unfold finally_clause. now destruct (connected _).
Qed.

(** X11.  The block raises, the connection is up and [rollback] works, but
    the scope has an override and the [set_isolation_level] call of the
    [finally] clause raises: that exception replaces the block's, and the
    handle is not put back in the queue although the connection is up. *)
Theorem failed_reset_replaces_fault (level : option Z) (body : block)
    (w0 w1 w2 : World) (h : handle) (l : Z) (e x : exn) (c c' : Conn) :
  enter drv level w0 = Yielded h (Some l) w1 ->
  body h w1 = (Some e, w2) ->
  connected (heap w2 h) = true ->
  rollback drv (heap w2 h) = (None, c) ->
  connected c = true ->
  set_isolation_level drv l c = (Some x, c') ->
  let w' := snd (connection drv level body w0) in
  fst (connection drv level body w0) = Raise x /\
  trace w' = trace w2 ++ [EvRollback h; EvSetIsolationLevel h l] /\
  pool w' = pool w2.
Proof.
  intros He Hb Hc Hr Hc' Hl. cbv zeta.
  rewrite (connection_eq drv level (Some l) body w0 w1 w2 h (Some e) He Hb).
  simpl. rewrite (except_connected drv e h (Some l) w2 None c Hc Hr).
  unfold finally_clause. rewrite heap_after_call, Hc'.
  unfold call. rewrite heap_after_call, Hl. simpl.
  now rewrite <- app_assoc.
Qed.

(** X12.  The block returns, the connection is up and [commit] works, but
    the [set_isolation_level] call of the [finally] clause raises: the
    scope raises although the transaction is committed, and the handle is
    not put back in the queue. *)
Theorem failed_reset_after_commit (level : option Z) (body : block)
    (w0 w1 w2 : World) (h : handle) (l : Z) (x : exn) (c c' : Conn) :
  enter drv level w0 = Yielded h (Some l) w1 ->
  body h w1 = (None, w2) ->
  connected (heap w2 h) = true ->
  commit drv (heap w2 h) = (None, c) ->
  connected c = true ->
  set_isolation_level drv l c = (Some x, c') ->
  let w' := snd (connection drv level body w0) in
  fst (connection drv level body w0) = Raise x /\
  trace w' = trace w2 ++ [EvCommit h; EvSetIsolationLevel h l] /\
  pool w' = pool w2.
Proof.
  intros He Hb Hc Hr Hc' Hl. cbv zeta.
  rewrite (connection_eq drv level (Some l) body w0 w1 w2 h None He Hb).
  simpl. rewrite (else_connected drv h (Some l) w2 None c Hc Hr).
  unfold finally_clause. rewrite heap_after_call, Hc'.
  unfold call. rewrite heap_after_call, Hl. simpl.
  now rewrite <- app_assoc.
Qed.

(** X27.  The block raises, the connection is up, [rollback] raises and
    the hub's [handle_error] raises in turn (as gevent's does with a
    [KeyboardInterrupt] in the main greenlet): what the hub raised replaces
    the block's exception, and [conn] is still the handle, so the
    connection, if it is up, goes back to the idle queue. *)
Theorem hub_error_replaces_fault (level level' : option Z) (body : block)
    (w0 w1 w2 : World) (h : handle) (e r x : exn) (c : Conn) :
  enter drv level w0 = Yielded h level' w1 ->
  body h w1 = (Some e, w2) ->
  connected (heap w2 h) = true ->
  rollback drv (heap w2 h) = (Some r, c) ->
  handle_error drv r = Some x ->
  connected c = true ->
  (forall l, level' = Some l -> fst (set_isolation_level drv l c) = None) ->
  let w' := snd (connection drv level body w0) in
  fst (connection drv level body w0) = Raise x /\
  trace w' = trace w2 ++ EvRollback h :: EvHandleError h r ::
               match level' with
               | Some l => [EvSetIsolationLevel h l]
               | None => []
               end /\
  pool w' = pool w2 ++ [h].
Proof.
  intros He Hb Hc Hr Hhub Hc' Hl. cbv zeta.
  rewrite (connection_eq drv level level' body w0 w1 w2 h (Some e) He Hb).
  simpl. rewrite (except_connected drv e h level' w2 (Some r) c Hc Hr), Hhub.
  destruct (finally_connected drv h level' (Some x)
              (log (EvHandleError h r) (log (EvRollback h) (set_conn h c w2))))
    as (Hres & Hp & Ht & _).
  - simpl. now rewrite Nat.eqb_refl.
  - simpl. now rewrite Nat.eqb_refl.
  - rewrite Hres, Hp, Ht. simpl. rewrite <- !app_assoc. auto.
Qed.

(** ** Scopes that do not reach their block *)

(** X13.  When [get] goes to the factory and the factory raises, the [with]
    statement raises that exception before its block runs; no method is
    called, [size] is back to what it was and the queue is still empty. *)
Theorem scope_over_failing_factory (level : option Z) (body : block)
    (w : World) (e : exn) :
  pool w = [] ->
  size w < maxsize w ->
  connect drv (connects w) = inl e ->
  let w' := snd (connection drv level body w) in
  fst (connection drv level body w) = Raise e /\
  size w' = size w /\
  pool w' = [] /\
  trace w' = trace w /\
  forall body', connection drv level body' w = connection drv level body w.
Proof.
  intros Hq Hroom Hc. cbv zeta. unfold connection, enter.
  rewrite (get_creates drv w Hroom Hq). unfold create. simpl.
  rewrite Hc. simpl. repeat split; auto. lia.
Qed.

(** X14.  When applying the override raises (line 56), the block does not
    run: the scope's outcome is the same for every block, it is an
    exception, and the connection, if it is up, has [rollback] called on
    it. *)
Theorem failed_override_skips_block (body : block) (w0 w1 : World)
    (h : handle) (l : Z) (e : exn) (c : Conn) :
  get drv w0 = (Return h, w1) ->
  isolation_level (heap w1 h) <> l ->
  set_isolation_level drv l (heap w1 h) = (Some e, c) ->
  (forall body', connection drv (Some l) body' w0 =
                 connection drv (Some l) body w0) /\
  (exists x, fst (connection drv (Some l) body w0) = Raise x) /\
  (connected c = true ->
   exists evs,
     trace (snd (connection drv (Some l) body w0)) =
       trace w1 ++ EvSetIsolationLevel h l :: EvRollback h :: evs).
Proof.
  intros Hg Hne Hs. apply Z.eqb_neq in Hne.
  assert (E : forall b, connection drv (Some l) b w0 =
                except_clause drv e h (Some l)
                  (log (EvSetIsolationLevel h l) (set_conn h c w1))).
  { intros b. unfold connection, enter. rewrite Hg, Hne.
    unfold call. rewrite Hs.
    now destruct (except_clause drv e h (Some l) _). }
  split; [|split].
  - intros body'. now rewrite !E.
  - rewrite E. apply except_raises.
  - intros Hc. rewrite E.
    set (w2 := log (EvSetIsolationLevel h l) (set_conn h c w1)).
    assert (Hc2 : connected (heap w2 h) = true).
    { unfold w2. now rewrite heap_after_call. }
    destruct (rollback drv (heap w2 h)) as [r c2] eqn:Hr.
    rewrite (except_connected drv e h (Some l) w2 r c2 Hc2 Hr).
    destruct r as [e'|]; [destruct (handle_error drv e') as [x|]|].
    + destruct (finally_issued drv (Some h) (Some l) (Some x)
                  (log (EvHandleError h e')
                       (log (EvRollback h) (set_conn h c2 w2))))
        as (evs & Hevs & _).
      exists (EvHandleError h e' :: evs). rewrite Hevs. simpl.
      now rewrite <- !app_assoc.
    + exists [EvHandleError h e']. simpl. now rewrite <- !app_assoc.
    + destruct (finally_issued drv (Some h) (Some l) (Some e)
                  (log (EvRollback h) (set_conn h c2 w2)))
        as (evs & Hevs & _).
      exists evs. rewrite Hevs. simpl. now rewrite <- !app_assoc.
Qed.

(** X15.  Asking for the level the connection already has is asking for
    none: the scope behaves as the one entered without a level, makes no
    [set_isolation_level] call before the block, and none on the way out. *)
Theorem same_level_is_no_override (l : Z) (body : block) (w0 w1 : World)
    (h : handle) :
  get drv w0 = (Return h, w1) ->
  isolation_level (heap w1 h) = l ->
  connection drv (Some l) body w0 = connection drv None body w0 /\
  enter drv (Some l) w0 = Yielded h None w1 /\
  forall raised w2, exists evs,
    issued w2 (snd (leave drv h None raised w2)) evs /\
    forall h' x, ~ In (EvSetIsolationLevel h' x) evs.
Proof.
  intros Hg Hl. apply Z.eqb_eq in Hl.
  assert (E : enter drv (Some l) w0 = Yielded h None w1).
  { unfold enter. now rewrite Hg, Hl. }
  split; [|split; [exact E|]].
  - unfold connection. rewrite E. unfold enter. now rewrite Hg.
  - intros raised w2.
    destruct (leave_issued drv h None raised w2) as (evs & Hevs & Hlev).
    exists evs. split; [exact Hevs|]. intros h' x Hin.
    now destruct (Hlev h' x Hin).
Qed.

(** ** Capacity after a lost connection *)

(** X16.  A connection that drops under a failing block is gone for good:
    the idle queue is drained and [size] is not lowered, so when the pool
    was at capacity the next [get] blocks, and no later [get] creates a
    replacement. *)
Theorem lost_connection_exhausts_pool (level level' : option Z)
    (body : block) (w0 w1 w2 : World) (h : handle) (e : exn) :
  enter drv level w0 = Yielded h level' w1 ->
  body h w1 = (Some e, w2) ->
  connected (heap w2 h) = false ->
  (forall c x c', close drv c = (Some x, c') -> is_Exception x = true) ->
  maxsize w2 <= size w2 ->
  let w' := snd (connection drv level body w0) in
  get drv w' = (Blocked, w') /\
  forall ops, connects (run drv ops w') = connects w2.
Proof.
  intros He Hb Hc Hclose Hfull. cbv zeta.
  assert (Hm : maxsize (snd (connection drv level body w0)) = maxsize w2 /\
               connects (snd (connection drv level body w0)) = connects w2).
  { rewrite (connection_eq drv level level' body w0 w1 w2 h (Some e) He Hb).
    destruct (leave_frame h level' (Some e) w2) as (Hm & Hcn & _). auto. }
  assert (Hs : size (snd (connection drv level body w0)) = size w2).
  { rewrite (connection_eq drv level level' body w0 w1 w2 h (Some e) He Hb).
    apply leave_size. }
  assert (Hp : pool (snd (connection drv level body w0)) = []).
  { rewrite (connection_eq drv level level' body w0 w1 w2 h (Some e) He Hb).
    simpl. rewrite (except_disconnected drv e h level' w2 Hc).
    destruct (closeall_loop_drains drv (pool w2) Hclose w2) as (Hr & Hp & _).
    unfold closeall. rewrite Hr. simpl. rewrite Hp. now destruct (pool w2). }
  destruct Hm as [Hm Hcn]. split.
  - apply get_full_empty; [lia|assumption].
  - intros ops.
    destruct (saturated_run drv
                (snd (connection drv level body w0)) ops) as (Hk & _); lia.
Qed.

End ScopeFacts.

(** * Properties of the cursor scope and the convenience methods *)

Section CursorFacts.

Variable drv : Driver.
Variable cd : CursorDriver.

(** [w'] is [w] but for the object behind [h]. *)
Definition differs_at (h : handle) (w w' : World) : Prop :=
  maxsize w' = maxsize w /\ size w' = size w /\ pool w' = pool w /\
  connects w' = connects w /\ trace w' = trace w /\
  forall h', h' <> h -> heap w' h' = heap w h'.

Lemma differs_at_refl (h : handle) (w : World) : differs_at h w w.
Proof. unfold differs_at. auto 10. Qed.

Lemma differs_at_set_conn (h : handle) (c : Conn) (w w' : World) :
  differs_at h w w' -> differs_at h w (set_conn h c w').
Proof.
  unfold differs_at. intros (Hm & Hs & Hp & Hc & Ht & Hh). simpl.
  repeat split; auto. intros h' Hne.
  destruct (Nat.eqb_spec h' h); [congruence|auto].
Qed.

Lemma differs_at_trans (h : handle) (w w1 w2 : World) :
  differs_at h w w1 -> differs_at h w1 w2 -> differs_at h w w2.
Proof.
  unfold differs_at.
  intros (Hm & Hs & Hp & Hc & Ht & Hh) (Hm' & Hs' & Hp' & Hc' & Ht' & Hh').
  repeat split; try congruence. intros h' Hne. rewrite Hh', Hh; auto.
Qed.

Lemma cursor_call_eq {B : Type} (m : Cursor -> Conn -> B * Cursor * Conn)
    (cur cur' : Cursor) (h : handle) (w : World) (b : B) (c : Conn) :
  m cur (heap w h) = (b, cur', c) ->
  cursor_call m cur h w = (b, cur', set_conn h c w).
Proof. intros E. unfold cursor_call. now rewrite E. Qed.

Lemma heap_set_conn (h : handle) (c : Conn) (w : World) :
  heap (set_conn h c w) h = c.
Proof. simpl. now rewrite Nat.eqb_refl. Qed.

(** The [with] statement of a method is the scope of [connection]: it ends
    in the same way and in the same world as the scope whose block forgets
    the value. *)
Lemma within_connection_is_connection {A : Type} (level : option Z)
    (body : handle -> World -> A * option exn * World) (default : A)
    (w : World) :
  (snd (fst (within_connection drv level body default w)),
   snd (within_connection drv level body default w)) =
    connection drv level
      (fun h w1 => (snd (fst (body h w1)), snd (body h w1))) w.
Proof.
  unfold within_connection, connection.
  destruct (enter drv level w) as [h level' w1|out w1]; [|reflexivity].
  destruct (body h w1) as [[a raised] w2]. simpl.
  now destruct (leave drv h level' raised w2).
Qed.

(** A cursor scope whose connection was acquired and whose cursor was
    opened ends as [leave] says, after its block. *)
Lemma cursor_eq {A : Type} (args : list string) (kw : kwargs)
    (body : Cursor -> handle -> World -> A * option exn * World)
    (default a : A) (w0 w1 w2 : World) (h : handle) (level' : option Z)
    (cur : Cursor) (c : Conn) (raised : option exn) :
  enter drv (scope_level kw) w0 = Yielded h level' w1 ->
  conn_cursor cd args (cursor_kwargs kw) (heap w1 h) = (inr cur, c) ->
  body cur h (set_conn h c w1) = (a, raised, w2) ->
  cursor drv cd args kw body default w0 =
    (a, fst (leave drv h level' raised w2), snd (leave drv h level' raised w2)).
Proof.
  intros He Hc Hb. unfold cursor, within_connection.
  unfold scope_level, cursor_kwargs in *.
  destruct (dict_pop "isolation_level" None kw) as [level kw'].
  simpl in He, Hc. rewrite He, Hc, Hb.
  now destruct (leave drv h level' raised w2).
Qed.


(** The way out after a block that returned, on a healthy connection. *)
Lemma leave_committed (h : handle) (level : option Z) (w : World)
    (c : Conn) :
  connected (heap w h) = true ->
  commit drv (heap w h) = (None, c) ->
  connected c = true ->
  (forall l, level = Some l -> fst (set_isolation_level drv l c) = None) ->
  fst (leave drv h level None w) = Return tt /\
  trace (snd (leave drv h level None w)) =
    trace w ++ EvCommit h :: match level with
                             | Some l => [EvSetIsolationLevel h l]
                             | None => []
                             end /\
  pool (snd (leave drv h level None w)) = pool w ++ [h].
Proof.
  intros Hc Hr Hc' Hl. simpl.
  rewrite (else_connected drv h level w None c Hc Hr).
  destruct (finally_connected drv h level None
              (log (EvCommit h) (set_conn h c w))) as (Hres & Hp & Ht & _).
  - now rewrite heap_after_call.
  - now rewrite heap_after_call.
  - rewrite Hres, Hp, Ht. simpl. now rewrite <- app_assoc.
Qed.


(** X17.  [execute] on a healthy connection: the cursor is opened with the
    keyword arguments less [isolation_level], the statement runs, [commit]
    is called once, the connection goes back to the idle queue, and the
    result is the cursor's [rowcount] after the statement. *)
Theorem execute_commits_and_returns_rowcount (args : list string)
    (kw : kwargs) (w0 w1 : World) (h : handle) (level' : option Z)
    (cur cur' : Cursor) (c1 c2 c3 : Conn) :
  enter drv (scope_level kw) w0 = Yielded h level' w1 ->
  conn_cursor cd [] (cursor_kwargs kw) (heap w1 h) = (inr cur, c1) ->
  cursor_execute cd args cur c1 = (None, cur', c2) ->
  connected c2 = true ->
  commit drv c2 = (None, c3) ->
  connected c3 = true ->
  (forall l, level' = Some l -> fst (set_isolation_level drv l c3) = None) ->
  let w' := snd (execute drv cd args kw w0) in
  fst (execute drv cd args kw w0) = Return (Some (rowcount cur')) /\
  trace w' = trace w1 ++ EvCommit h :: match level' with
                                       | Some l => [EvSetIsolationLevel h l]
                                       | None => []
                                       end /\
  pool w' = pool w1 ++ [h].
Proof.
  intros He Hcur Hex Hc2 Hcommit Hc3 Hl. cbv zeta. unfold execute.
  rewrite (cursor_eq [] kw (execute_body cd args) None
             (Some (rowcount cur')) w0 w1
             (set_conn h c2 (set_conn h c1 w1)) h level' cur c1 None He Hcur).
  - destruct (leave_committed h level'
                (set_conn h c2 (set_conn h c1 w1)) c3) as (Hres & Ht & Hp);
      try (rewrite heap_set_conn); auto.
    cbv beta iota. cbn [fst snd]. rewrite Hres, Ht, Hp. repeat split.
  - unfold execute_body.
    rewrite (cursor_call_eq (cursor_execute cd args) cur cur' h
               (set_conn h c1 w1) None c2); [reflexivity|].
    now rewrite heap_set_conn.
Qed.



(** ** A value comes back only after a commit *)

Lemma get_trace (w : World) : trace (snd (get drv w)) = trace w.
Proof.
  destruct (get_cases drv w)
    as [(h & q & _ & E)|[(_ & _ & E)|(_ & _ & E)]]; rewrite E; simpl; auto.
  destruct (create_cases drv (reserve w)) as [(h & c & _ & E')|(e & _ & E')];
    now rewrite E'.
Qed.

(** Up to the [yield] the scope calls nothing but [set_isolation_level]. *)
Lemma enter_yield_trace (level level' : option Z) (w w1 : World)
    (h : handle) :
  enter drv level w = Yielded h level' w1 ->
  exists pre, trace w1 = trace w ++ pre /\ filter ends_transaction pre = [].
Proof.
  unfold enter. pose proof (get_trace w) as Hg.
  destruct (get drv w) as [[h0|e|] wg]; try discriminate. simpl in Hg.
  assert (Hplain : Yielded h0 None wg = Yielded h level' w1 ->
            exists pre, trace w1 = trace w ++ pre /\
                        filter ends_transaction pre = []).
  { intros [= <- <- <-]. exists []. now rewrite app_nil_r. }
  destruct level as [l|]; [|exact Hplain].
  destruct (isolation_level (heap wg h0) =? l); [exact Hplain|].
  unfold call. destruct (set_isolation_level drv l (heap wg h0)) as [[e|] c].
  - destruct (except_clause _ _ _ _ _). discriminate.
  - intros [= <- <- <-]. exists [EvSetIsolationLevel h0 l]. simpl.
    now rewrite Hg.
Qed.


(** The way out returns only through a [commit] that returned. *)
Lemma leave_returns_inv (h : handle) (level : option Z)
    (raised : option exn) (w : World) :
  fst (leave drv h level raised w) = Return tt ->
  raised = None /\ connected (heap w h) = true /\
  exists c evs,
    commit drv (heap w h) = (None, c) /\
    trace (snd (leave drv h level raised w)) = trace w ++ EvCommit h :: evs /\
    filter ends_transaction evs = [].
Proof.
  destruct raised as [e|]; simpl.
  - destruct (except_raises drv e h level w) as (x & Hx). rewrite Hx.
    discriminate.
  - unfold else_clause. destruct (connected (heap w h)) eqn:Hc;
      cbn [negb]; cbv iota.
    + unfold call. destruct (commit drv (heap w h)) as [r c].
      cbv beta iota. intros Hret.
      destruct (finally_no_end drv (Some h) level r
                  (log (EvCommit h) (set_conn h c w)))
        as (evs & Hevs & Hf & _).
      destruct r as [e|].
      * destruct (finally_pending_raises drv (Some h) level e
                    (log (EvCommit h) (set_conn h c w))) as (x & Hx).
        rewrite Hx in Hret. discriminate.
      * repeat split. exists c, evs. repeat split; auto.
        rewrite Hevs. simpl. now rewrite <- app_assoc.
    + unfold finally_clause. rewrite Hc. discriminate.
Qed.

(** X20.  A scope ends normally only when its block returned, the
    connection was up and [commit] returned: then [commit] was called once,
    and [rollback] was not called. *)
Theorem normal_exit_means_committed (level level' : option Z)
    (body : block) (w0 w1 w2 : World) (h : handle) (raised : option exn) :
  enter drv level w0 = Yielded h level' w1 ->
  body h w1 = (raised, w2) ->
  fst (connection drv level body w0) = Return tt ->
  raised = None /\ connected (heap w2 h) = true /\
  exists c evs,
    commit drv (heap w2 h) = (None, c) /\
    trace (snd (connection drv level body w0)) =
      trace w2 ++ EvCommit h :: evs /\
    filter ends_transaction evs = [].
Proof.
  intros He Hb.
  rewrite (connection_eq drv level level' body w0 w1 w2 h raised He Hb).
  apply leave_returns_inv.
Qed.



Lemma cursor_call_trace {B : Type}
    (m : Cursor -> Conn -> B * Cursor * Conn) (cur : Cursor) (h : handle)
    (w : World) :
  trace (snd (cursor_call m cur h w)) = trace w.
Proof. unfold cursor_call. now destruct (m cur (heap w h)) as [[b cur'] c]. Qed.






(** ** [fetchone] and [fetchall] *)

(** A cursor scope on a healthy connection whose block returns [a] without
    calling anything on the connection. *)
Lemma cursor_commits {A : Type} (args : list string) (kw : kwargs)
    (body : Cursor -> handle -> World -> A * option exn * World)
    (default a : A) (w0 w1 w2 : World) (h : handle) (level' : option Z)
    (cur : Cursor) (c1 c3 : Conn) :
  enter drv (scope_level kw) w0 = Yielded h level' w1 ->
  conn_cursor cd args (cursor_kwargs kw) (heap w1 h) = (inr cur, c1) ->
  body cur h (set_conn h c1 w1) = (a, None, w2) ->
  differs_at h w1 w2 ->
  connected (heap w2 h) = true ->
  commit drv (heap w2 h) = (None, c3) ->
  connected c3 = true ->
  (forall l, level' = Some l -> fst (set_isolation_level drv l c3) = None) ->
  exists w',
    cursor drv cd args kw body default w0 = (a, Return tt, w') /\
    trace w' = trace w1 ++ EvCommit h :: match level' with
                                         | Some l => [EvSetIsolationLevel h l]
                                         | None => []
                                         end /\
    pool w' = pool w1 ++ [h].
Proof.
  intros He Hcur Hb (_ & _ & Hp & _ & Ht & _) Hc Hcommit Hc3 Hl.
  rewrite (cursor_eq args kw body default a w0 w1 w2 h level' cur c1 None
             He Hcur Hb).
  destruct (leave_committed h level' w2 c3 Hc Hcommit Hc3 Hl)
    as (Hres & Ht' & Hp').
  exists (snd (leave drv h level' None w2)).
  rewrite Hres, Ht', Hp', Ht, Hp. auto.
Qed.

(** X22.  [fetchall] on a healthy connection returns the rows that
    [cursor.fetchall] gave after the statement, once [commit] has been
    called, and puts the connection back in the idle queue. *)
Theorem fetchall_returns_rows (args : list string) (kw : kwargs)
    (w0 w1 : World) (h : handle) (level' : option Z)
    (cur cur1 cur2 : Cursor) (c1 c2 c3 c4 : Conn) (rows : list row) :
  enter drv (scope_level kw) w0 = Yielded h level' w1 ->
  conn_cursor cd [] (cursor_kwargs kw) (heap w1 h) = (inr cur, c1) ->
  cursor_execute cd args cur c1 = (None, cur1, c2) ->
  cursor_fetchall cd cur1 c2 = (inr rows, cur2, c3) ->
  connected c3 = true ->
  commit drv c3 = (None, c4) ->
  connected c4 = true ->
  (forall l, level' = Some l -> fst (set_isolation_level drv l c4) = None) ->
  let w' := snd (fetchall drv cd args kw w0) in
  fst (fetchall drv cd args kw w0) = Return (Some rows) /\
  trace w' = trace w1 ++ EvCommit h :: match level' with
                                       | Some l => [EvSetIsolationLevel h l]
                                       | None => []
                                       end /\
  pool w' = pool w1 ++ [h].
Proof.
  intros He Hcur Hex Hfetch Hc3 Hcommit Hc4 Hl. cbv zeta. unfold fetchall.
  destruct (cursor_commits [] kw (fetchall_body cd args) None (Some rows)
              w0 w1 (set_conn h c3 (set_conn h c2 (set_conn h c1 w1)))
              h level' cur c1 c4 He Hcur) as (w' & E & Ht & Hp);
    try (rewrite heap_set_conn); auto.
  - unfold fetchall_body.
    rewrite (cursor_call_eq (cursor_execute cd args) cur cur1 h
               (set_conn h c1 w1) None c2) by now rewrite heap_set_conn.
    now rewrite (cursor_call_eq (cursor_fetchall cd) cur1 cur2 h
                   (set_conn h c2 (set_conn h c1 w1)) (inr rows) c3)
      by now rewrite heap_set_conn.
  - repeat apply differs_at_set_conn. apply differs_at_refl.
  - rewrite E. simpl. auto.
Qed.

(** X23.  [fetchone] on a healthy connection returns what
    [cursor.fetchone] gave after the statement, a row or [None], once
    [commit] has been called, and puts the connection back in the idle
    queue. *)
Theorem fetchone_returns_row (args : list string) (kw : kwargs)
    (w0 w1 : World) (h : handle) (level' : option Z)
    (cur cur1 cur2 : Cursor) (c1 c2 c3 c4 : Conn) (x : option row) :
  enter drv (scope_level kw) w0 = Yielded h level' w1 ->
  conn_cursor cd [] (cursor_kwargs kw) (heap w1 h) = (inr cur, c1) ->
  cursor_execute cd args cur c1 = (None, cur1, c2) ->
  cursor_fetchone cd cur1 c2 = (inr x, cur2, c3) ->
  connected c3 = true ->
  commit drv c3 = (None, c4) ->
  connected c4 = true ->
  (forall l, level' = Some l -> fst (set_isolation_level drv l c4) = None) ->
  let w' := snd (fetchone drv cd args kw w0) in
  fst (fetchone drv cd args kw w0) = Return (Some x) /\
  trace w' = trace w1 ++ EvCommit h :: match level' with
                                       | Some l => [EvSetIsolationLevel h l]
                                       | None => []
                                       end /\
  pool w' = pool w1 ++ [h].
Proof.
  intros He Hcur Hex Hfetch Hc3 Hcommit Hc4 Hl. cbv zeta. unfold fetchone.
  destruct (cursor_commits [] kw (fetchone_body cd args) None (Some x)
              w0 w1 (set_conn h c3 (set_conn h c2 (set_conn h c1 w1)))
              h level' cur c1 c4 He Hcur) as (w' & E & Ht & Hp);
    try (rewrite heap_set_conn); auto.
  - unfold fetchone_body.
    rewrite (cursor_call_eq (cursor_execute cd args) cur cur1 h
               (set_conn h c1 w1) None c2) by now rewrite heap_set_conn.
    now rewrite (cursor_call_eq (cursor_fetchone cd) cur1 cur2 h
                   (set_conn h c2 (set_conn h c1 w1)) (inr x) c3)
      by now rewrite heap_set_conn.
  - repeat apply differs_at_set_conn. apply differs_at_refl.
  - rewrite E. simpl. auto.
Qed.

(** ** [fetchiter] *)

Lemma fetch_loop_serves (h : handle) (cur cur' : Cursor) (c c' : Conn)
    (bs : list (list row)) :
  serves cd cur c bs cur' c' ->
  forall w fuel seen,
    heap w h = c ->
    (List.length bs < fuel)%nat ->
    exists w',
      fetch_loop cd fuel None cur h w seen = (Some (seen ++ List.concat bs), None, w') /\
      differs_at h w w' /\ heap w' h = c'.
Proof.
  induction 1 as [cur cur' c c' Hf|cur cur1 cur' c c1 c' b bs Hf Hb Hs IH];
    intros w fuel seen Hh Hlt; (destruct fuel as [|fuel]; [simpl in Hlt; lia|]);
    simpl; unfold cursor_call; rewrite Hh, Hf.
  - exists (set_conn h c' w). rewrite app_nil_r. split; [reflexivity|].
    split; [apply differs_at_set_conn, differs_at_refl|apply heap_set_conn].
  - destruct b as [|r b]; [congruence|].
    destruct (IH (set_conn h c1 w) fuel (seen ++ r :: b))
      as (w' & E & Hd & Hh'); [apply heap_set_conn|simpl in Hlt; lia|].
    exists w'. rewrite E. rewrite <- app_assoc. split; [reflexivity|].
    split; [|exact Hh'].
    apply (differs_at_trans h w (set_conn h c1 w) w');
      [apply differs_at_set_conn, differs_at_refl|exact Hd].
Qed.

(** X24.  [fetchiter] iterated to its end on a healthy connection: when
    [fetchmany] gives the non-empty batches [bs] and then an empty one, the
    consumer receives the rows of [bs], in order and once each; [commit] is
    called after the empty batch, and the connection goes back to the idle
    queue.  [fuel] larger than the number of batches is enough. *)
Theorem fetchiter_yields_all_rows (fuel : nat) (args : list string)
    (kw : kwargs) (w0 w1 : World) (h : handle) (level' : option Z)
    (cur cur1 cur' : Cursor) (c1 c2 c3 c4 : Conn) (bs : list (list row)) :
  enter drv (scope_level kw) w0 = Yielded h level' w1 ->
  conn_cursor cd [] (cursor_kwargs kw) (heap w1 h) = (inr cur, c1) ->
  cursor_execute cd args cur c1 = (None, cur1, c2) ->
  serves cd cur1 c2 bs cur' c3 ->
  connected c3 = true ->
  commit drv c3 = (None, c4) ->
  connected c4 = true ->
  (forall l, level' = Some l -> fst (set_isolation_level drv l c4) = None) ->
  (List.length bs < fuel)%nat ->
  exists w',
    fetchiter drv cd fuel None args kw w0 = Some (List.concat bs, Return tt, w') /\
    trace w' = trace w1 ++ EvCommit h :: match level' with
                                         | Some l => [EvSetIsolationLevel h l]
                                         | None => []
                                         end /\
    pool w' = pool w1 ++ [h].
Proof.
  intros He Hcur Hex Hs Hc3 Hcommit Hc4 Hl Hfuel. unfold fetchiter.
  destruct (fetch_loop_serves h cur1 cur' c2 c3 bs Hs
              (set_conn h c2 (set_conn h c1 w1)) fuel [])
    as (w2 & E & Hd & Hh); [apply heap_set_conn|exact Hfuel|].
  destruct (cursor_commits [] kw (fetchiter_body cd fuel None args) (Some [])
              (Some (List.concat bs)) w0 w1 w2 h level' cur c1 c4 He Hcur)
    as (w' & E' & Ht & Hp); try (rewrite Hh); auto.
  - unfold fetchiter_body.
    rewrite (cursor_call_eq (cursor_execute cd args) cur cur1 h
               (set_conn h c1 w1) None c2) by now rewrite heap_set_conn.
    exact E.
  - apply (differs_at_trans h w1 (set_conn h c2 (set_conn h c1 w1)) w2);
      [repeat apply differs_at_set_conn; apply differs_at_refl|exact Hd].
  - exists w'. rewrite E'. auto.
Qed.

Lemma fetch_loop_trace (fuel : nat) :
  forall want cur h w seen,
    trace (snd (fetch_loop cd fuel want cur h w seen)) = trace w.
Proof.
  induction fuel as [|fuel IH]; intros want cur h w seen; simpl; [reflexivity|].
  pose proof (cursor_call_trace (cursor_fetchmany cd) cur h w) as Ht.
  destruct (cursor_call (cursor_fetchmany cd) cur h w)
    as [[[e|[|r items]] cur'] w1]; simpl in *; auto.
  destruct want as [n|]; [|now rewrite IH].
  destruct (n <=? S (List.length items))%nat; simpl; [auto|now rewrite IH].
Qed.

(** A consumer that wants [n] more items gets them only by closing the
    generator. *)
Lemma fetch_loop_closed (fuel : nat) :
  forall n cur h w seen rows raised w',
    (1 <= n)%nat ->
    fetch_loop cd fuel (Some n) cur h w seen = (Some rows, raised, w') ->
    (List.length rows = List.length seen + n)%nat ->
    raised = Some GeneratorExit.
Proof.
  induction fuel as [|fuel IH]; intros n cur h w seen rows raised w' Hn;
    simpl; [discriminate|].
  destruct (cursor_call (cursor_fetchmany cd) cur h w)
    as [[[e|[|r items]] cur'] w1].
  - intros [= <- <- <-]. lia.
  - intros [= <- <- <-]. lia.
  - destruct (n <=? List.length (r :: items))%nat eqn:Hle.
    + now intros [= <- <- <-].
    + apply Nat.leb_gt in Hle. intros E Hlen.
      apply (IH (n - List.length (r :: items))%nat cur' h w1
                (seen ++ r :: items) rows raised w');
        [lia|exact E|rewrite List.length_app; lia].
Qed.

(** X25.  A consumer of [fetchiter] that takes [n] rows, at least one, and
    then closes the generator never has its transaction committed, even
    when those were all the rows there were: the generator unwinds with an
    exception, through the [except] clause of the scope, and [commit] is not
    called. *)
Theorem closed_fetchiter_never_commits (fuel n : nat) (args : list string)
    (kw : kwargs) (w w' : World) (rows : list row) (out : result unit) :
  fetchiter drv cd fuel (Some n) args kw w = Some (rows, out, w') ->
  (1 <= n)%nat ->
  List.length rows = n ->
  (exists x, out = Raise x) /\
  exists evs,
    trace w' = trace w ++ evs /\ forall h, ~ In (EvCommit h) evs.
Proof.
  unfold fetchiter. destruct n as [|n]; [intros _ Hn; lia|].
  unfold cursor, within_connection.
  destruct (dict_pop "isolation_level" None kw) as [level kw'].
  destruct (enter drv level w) as [h level' w1|out1 w1] eqn:He.
  - destruct (enter_yield_trace level level' w w1 h He) as (pre & Hpre & Hf).
    assert (Hpre' : forall h0, ~ In (EvCommit h0) pre).
    { intros h0 Hin.
      assert (Hin' : In (EvCommit h0) (filter ends_transaction pre))
        by (apply filter_In; auto).
      now rewrite Hf in Hin'. }
    assert (Hgo : forall e w2, trace w2 = trace w1 ->
              (exists x, fst (leave drv h level' (Some e) w2) = Raise x) /\
              exists evs,
                trace (snd (leave drv h level' (Some e) w2)) = trace w ++ evs /\
                forall h0, ~ In (EvCommit h0) evs).
    { intros e w2 Ht. split; [apply (except_raises drv e h level' w2)|].
      destruct (leave_ends_once drv h level' (Some e) w2)
        as (evs & Hevs & _ & Hcm & _).
      exists (pre ++ evs). unfold issued in Hevs.
      rewrite Hevs, Ht, Hpre, <- app_assoc. split; [reflexivity|].
      intros h0 Hin. apply in_app_or in Hin as [Hin|Hin].
      - exact (Hpre' h0 Hin).
      - destruct (Hcm h0 Hin) as (_ & Hr & _). discriminate. }
    destruct (conn_cursor cd [] kw' (heap w1 h)) as [[e|cur] c].
    + destruct (leave drv h level' (Some e) (set_conn h c w1)) as [o w3].
      intros [= <- <- <-] _ Hlen. simpl in Hlen. lia.
    + unfold fetchiter_body.
      pose proof (cursor_call_trace (cursor_execute cd args) cur h
                    (set_conn h c w1)) as Ht.
      destruct (cursor_call (cursor_execute cd args) cur h (set_conn h c w1))
        as [[[e|] cur'] w2]; simpl in Ht.
      * destruct (leave drv h level' (Some e) w2) as [o w3].
        intros [= <- <- <-] _ Hlen. simpl in Hlen. lia.
      * pose proof (fetch_loop_trace fuel (Some (S n)) cur' h w2 []) as Ht2.
        pose proof (fetch_loop_closed fuel (S n) cur' h w2 []) as Hcl.
        destruct (fetch_loop cd fuel (Some (S n)) cur' h w2 [])
          as [[[rows'|] raised] w3]; simpl in Ht2.
        -- pose proof (Hgo GeneratorExit w3) as Hfin.
           destruct (leave drv h level' raised w3) as [o w4] eqn:El.
           intros [= <- <- <-] Hn Hlen.
           rewrite (Hcl rows' raised w3 Hn eq_refl Hlen) in El.
           rewrite El in Hfin. simpl in Hfin. apply Hfin. congruence.
        -- destruct (leave drv h level' raised w3). discriminate.
  - intros [= <- <- <-] _ Hlen. simpl in Hlen. lia.
Qed.

(** ** Keyword arguments *)

Lemma dict_find_remove (k k' : string) (d : kwargs) :
  dict_find k' (dict_remove k d) =
    if String.eqb k k' then None else dict_find k' d.
Proof.
  induction d as [|[k0 v] d IH]; simpl.
  - now destruct (String.eqb k k').
  - destruct (String.eqb_spec k k0) as [->|Hne]; simpl.
    + destruct (String.eqb_spec k' k0) as [->|Hne'].
      * rewrite IH. now rewrite String.eqb_refl.
      * exact IH.
    + destruct (String.eqb_spec k' k0) as [->|Hne'].
      * destruct (String.eqb_spec k k0); [congruence|reflexivity].
      * exact IH.
Qed.

(** X26.  The cursor scope keeps [isolation_level] for itself and hands
    every other keyword argument on as it came: [conn.cursor] never sees an
    [isolation_level] keyword, and the scope's level is the keyword's value,
    or none when the keyword is absent. *)
Theorem isolation_level_keyword_is_consumed (kw : kwargs) :
  dict_find "isolation_level" (cursor_kwargs kw) = None /\
  (forall k, k <> "isolation_level"%string ->
             dict_find k (cursor_kwargs kw) = dict_find k kw) /\
  (forall v, dict_find "isolation_level" kw = Some v -> scope_level kw = v) /\
  (dict_find "isolation_level" kw = None -> scope_level kw = None).
Proof.
  unfold cursor_kwargs, scope_level, dict_pop. simpl.
  split; [|split; [|split]].
  - rewrite dict_find_remove. now rewrite String.eqb_refl.
  - intros k Hne. rewrite dict_find_remove.
    destruct (String.eqb_spec "isolation_level" k); [congruence|reflexivity].
  - intros v Hv. now rewrite Hv.
  - intros Hv. now rewrite Hv.
Qed.

End CursorFacts.

(** * The pool on the sample driver *)


(** The factory's second invocation fails. *)
Lemma factory_failure_releases_slot_run :
  fst (get sample_driver one_out) = Raise (Failure 1) /\
  size (snd (get sample_driver one_out)) = 1 /\
  pool (snd (get sample_driver one_out)) = [] /\
  heap (snd (get sample_driver one_out)) = heap one_out /\
  trace (snd (get sample_driver one_out)) = [] /\
  connects (snd (get sample_driver one_out)) = 2%nat /\
  get sample_driver (snd (get sample_driver one_out)) =
    create sample_driver (reserve (snd (get sample_driver one_out))).
Proof.
  apply (factory_failure_releases_slot sample_driver one_out (Failure 1));
    reflexivity.
Defined.

(** Connection 1 drops while its statement fails; connection 2 is idle and
    its [close] fails. *)
Lemma disconnected_fault_drains_queue_run :
  fst (connection sample_driver None body_drops_raises (two_idle 2)) =
    Raise (Failure 9) /\
  trace (snd (connection sample_driver None body_drops_raises (two_idle 2))) =
    [EvClose 2%nat] /\
  pool (snd (connection sample_driver None body_drops_raises (two_idle 2))) =
    [] /\
  size (snd (connection sample_driver None body_drops_raises (two_idle 2))) =
    2.
Proof.
  apply (disconnected_fault_drains_queue sample_driver None None
           body_drops_raises (two_idle 2)
           (snd (get sample_driver (two_idle 2)))
           (snd (body_drops_raises 1%nat (snd (get sample_driver (two_idle 2)))))
           1%nat (Failure 9)); try reflexivity.
  intros c x c' H. simpl in H.
  destruct (Nat.eqb (driver_state c) 2); inversion H. reflexivity.
Defined.

(** The statement fails on connection 1, whose [rollback] fails too. *)
Lemma rollback_failure_keeps_primary_fault_run :
  fst (connection sample_driver None body_raises (one_idle 1)) =
    Raise (Failure 9) /\
  trace (snd (connection sample_driver None body_raises (one_idle 1))) =
    [EvRollback 1%nat; EvHandleError 1%nat (Failure 1)] /\
  pool (snd (connection sample_driver None body_raises (one_idle 1))) = [] /\
  size (snd (connection sample_driver None body_raises (one_idle 1))) = 1.
Proof.
  apply (rollback_failure_keeps_primary_fault sample_driver None None
           body_raises (one_idle 1)
           (snd (get sample_driver (one_idle 1)))
           (snd (get sample_driver (one_idle 1)))
           1%nat (Failure 9) (Failure 1) (mkConn true 0 1)); reflexivity.
Defined.

(** The statement fails on connection 1, entered at isolation level 5. *)
Lemma fault_rolls_back_and_releases_run :
  fst (connection sample_driver (Some 5) body_raises (one_idle 0)) =
    Raise (Failure 9) /\
  trace (snd (connection sample_driver (Some 5) body_raises (one_idle 0))) =
    [EvSetIsolationLevel 1%nat 5; EvRollback 1%nat;
     EvSetIsolationLevel 1%nat 5] /\
  pool (snd (connection sample_driver (Some 5) body_raises (one_idle 0))) =
    [1%nat] /\
  size (snd (connection sample_driver (Some 5) body_raises (one_idle 0))) = 1.
Proof.
  apply (fault_rolls_back_and_releases sample_driver (Some 5) (Some 5)
           body_raises (one_idle 0)
           (snd (call (set_isolation_level sample_driver 5)
                      (EvSetIsolationLevel 1%nat 5) 1%nat
                      (snd (get sample_driver (one_idle 0)))))
           (snd (call (set_isolation_level sample_driver 5)
                      (EvSetIsolationLevel 1%nat 5) 1%nat
                      (snd (get sample_driver (one_idle 0)))))
           1%nat (Failure 9) (mkConn true 5 0)); reflexivity.
Defined.

(** The statement succeeds on connection 1 while connection 2 is idle: the
    second acquisition after the scope returns connection 1. *)
Lemma commit_then_release_run :
  fst (connection sample_driver None body_ok (two_idle 0)) = Return tt /\
  trace (snd (connection sample_driver None body_ok (two_idle 0))) =
    [EvCommit 1%nat] /\
  pool (snd (connection sample_driver None body_ok (two_idle 0))) =
    [2%nat; 1%nat] /\
  get sample_driver
      (run sample_driver [Acquire]
           (snd (connection sample_driver None body_ok (two_idle 0)))) =
    (Return 1%nat,
     set_pool [] (snd (connection sample_driver None body_ok (two_idle 0)))).
Proof.
  apply (commit_then_release sample_driver None None body_ok (two_idle 0)
           (snd (get sample_driver (two_idle 0)))
           (snd (get sample_driver (two_idle 0)))
           1%nat None fresh); reflexivity.
Defined.

(** Connection 1 drops after its statement appeared to succeed, while
    connection 2 is idle: the scope raises, and the world is as the block
    left it. *)
Lemma dead_commit_fault_skips_except_run :
  (exists x,
     fst (connection sample_driver None body_drops (two_idle 0)) = Raise x) /\
  snd (connection sample_driver None body_drops (two_idle 0)) =
    snd (body_drops 1%nat (snd (get sample_driver (two_idle 0)))).
Proof.
  apply (dead_commit_fault_skips_except sample_driver None None body_drops
           (two_idle 0)
           (snd (get sample_driver (two_idle 0)))
           (snd (body_drops 1%nat (snd (get sample_driver (two_idle 0)))))
           1%nat); reflexivity.
Defined.

(** C3, as the claim has it, fails.  In the same run the scope is entered
    with connection 1, the block returns, connection 1 reports not
    connected, and yet connection 2 is still in the idle queue afterwards
    and [close] was not called on it: the queue was not drained. *)
Lemma dead_commit_fault_does_not_drain :
  let w0 := two_idle 0 in
  let w1 := snd (get sample_driver w0) in
  let w2 := snd (body_drops 1%nat w1) in
  let w' := snd (connection sample_driver None body_drops w0) in
  enter sample_driver None w0 = Yielded 1%nat None w1 /\
  body_drops 1%nat w1 = (None, w2) /\
  connected (heap w2 1%nat) = false /\
  pool w2 = [2%nat] /\
  pool w' = [2%nat] /\
  pool w' <> [] /\
  ~ In (EvClose 2%nat) (trace w').
Proof.
  cbv zeta. repeat split; try discriminate. intros [].
Qed.

(** The same run: the exception that reaches the caller. *)
Lemma dead_commit_raises_NameError_run :
  fst (connection sample_driver None body_drops (two_idle 0)) =
    Raise (NameError "OperationalError") /\
  (forall c, fst (connection sample_driver None body_drops (two_idle 0)) <>
             Raise (OperationalError c)) /\
  trace (snd (connection sample_driver None body_drops (two_idle 0))) = [] /\
  pool (snd (connection sample_driver None body_drops (two_idle 0))) =
    [2%nat].
Proof.
  apply (dead_commit_raises_NameError sample_driver None None body_drops
           (two_idle 0)
           (snd (get sample_driver (two_idle 0)))
           (snd (body_drops 1%nat (snd (get sample_driver (two_idle 0)))))
           1%nat); reflexivity.
Defined.

(** C2, what the code does.  Connection 1 is at isolation level 0 and the
    scope asks for level 5.  Level 5 is applied before the block runs; on
    the way out [set_isolation_level] is called with 5 again, on the commit
    path and on the rollback path alike, and the connection goes back to the
    idle queue at level 5, not at the level 0 it had. *)
Theorem override_is_reapplied_not_restored :
  let w0 := one_idle 0 in
  let committed := connection sample_driver (Some 5) body_ok w0 in
  let rolled_back := connection sample_driver (Some 5) body_raises w0 in
  isolation_level (heap w0 1%nat) = 0 /\
  enter sample_driver (Some 5) w0 =
    Yielded 1%nat (Some 5)
            (snd (call (set_isolation_level sample_driver 5)
                       (EvSetIsolationLevel 1%nat 5) 1%nat
                       (snd (get sample_driver w0)))) /\
  (fst committed = Return tt /\
   trace (snd committed) =
     [EvSetIsolationLevel 1%nat 5; EvCommit 1%nat;
      EvSetIsolationLevel 1%nat 5] /\
   pool (snd committed) = [1%nat] /\
   isolation_level (heap (snd committed) 1%nat) = 5) /\
  (fst rolled_back = Raise (Failure 9) /\
   trace (snd rolled_back) =
     [EvSetIsolationLevel 1%nat 5; EvRollback 1%nat;
      EvSetIsolationLevel 1%nat 5] /\
   pool (snd rolled_back) = [1%nat] /\
   isolation_level (heap (snd rolled_back) 1%nat) = 5).
Proof.
  cbv zeta. repeat split.
Qed.

(** * Further runs on the sample driver *)

(** Three handles released to a fresh pool of capacity 5. *)
Lemma released_handles_return_in_order_run :
  acquire_n sample_driver 3
    (run sample_driver [Release 7; Release 8; Release 7]%nat
         (init 5 (fun _ => fresh))) =
    ([Return 7; Return 8; Return 7]%nat, init 5 (fun _ => fresh)).
Proof.
  apply (released_handles_return_in_order sample_driver [7; 8; 7]%nat
           (init 5 (fun _ => fresh))).
  reflexivity.
Defined.

(** A pool of capacity 0 never connects. *)
Lemma no_creation_at_capacity_run :
  connects (run sample_driver [Acquire; Release 4%nat; Acquire; Acquire]
                (init 0 (fun _ => fresh))) = 0%nat /\
  size (run sample_driver [Acquire; Release 4%nat; Acquire; Acquire]
            (init 0 (fun _ => fresh))) = 0 /\
  maxsize (run sample_driver [Acquire; Release 4%nat; Acquire; Acquire]
               (init 0 (fun _ => fresh))) = 0.
Proof.
  apply (no_creation_at_capacity sample_driver (init 0 (fun _ => fresh))
           [Acquire; Release 4%nat; Acquire; Acquire]).
  simpl. lia.
Defined.

(** The statement fails on connection 1 while connection 2 is idle. *)
Lemma scope_exit_spares_other_connections_run :
  maxsize (snd (connection sample_driver None body_raises (two_idle 0))) = 2 /\
  connects (snd (connection sample_driver None body_raises (two_idle 0))) =
    2%nat /\
  forall h', h' <> 1%nat -> ~ In h' [2%nat] ->
    heap (snd (connection sample_driver None body_raises (two_idle 0))) h' =
      heap (snd (get sample_driver (two_idle 0))) h'.
Proof.
  apply (scope_exit_spares_other_connections sample_driver None None
           body_raises (two_idle 0)
           (snd (get sample_driver (two_idle 0)))
           (snd (get sample_driver (two_idle 0)))
           1%nat (Some (Failure 9))); reflexivity.
Defined.

Lemma scope_exit_ends_transaction_once_run :
  exists evs,
    issued (snd (get sample_driver (two_idle 0)))
           (snd (connection sample_driver None body_raises (two_idle 0))) evs /\
    (List.length (filter ends_transaction evs) <= 1)%nat /\
    (forall h', In (EvCommit h') evs ->
       h' = 1%nat /\ Some (Failure 9) = None /\
       connected (heap (snd (get sample_driver (two_idle 0))) 1%nat) = true) /\
    (forall h', In (EvRollback h') evs ->
       h' = 1%nat /\ Some (Failure 9) <> None /\
       connected (heap (snd (get sample_driver (two_idle 0))) 1%nat) = true) /\
    (forall h', In (EvClose h') evs ->
       In h' (pool (snd (get sample_driver (two_idle 0)))) /\
       Some (Failure 9) <> None /\
       connected (heap (snd (get sample_driver (two_idle 0))) 1%nat) = false).
Proof.
  apply (scope_exit_ends_transaction_once sample_driver None None
           body_raises (two_idle 0)
           (snd (get sample_driver (two_idle 0)))
           (snd (get sample_driver (two_idle 0)))
           1%nat (Some (Failure 9))); reflexivity.
Defined.

(** The statement fails on a connection that has dropped and whose
    override would be reset. *)
Lemma raising_block_always_raises_run :
  exists x,
    fst (connection sample_driver (Some 5) body_drops_raises (two_idle 2)) =
      Raise x.
Proof.
  apply (raising_block_always_raises sample_driver (Some 5) (Some 5)
           body_drops_raises (two_idle 2)
           (snd (call (set_isolation_level sample_driver 5)
                      (EvSetIsolationLevel 1%nat 5) 1%nat
                      (snd (get sample_driver (two_idle 2)))))
           (snd (body_drops_raises 1%nat
                   (snd (call (set_isolation_level sample_driver 5)
                              (EvSetIsolationLevel 1%nat 5) 1%nat
                              (snd (get sample_driver (two_idle 2)))))))
           1%nat (Failure 9)); reflexivity.
Defined.

(** The statement fails on connection 1, whose [rollback] fails too. *)
Lemma block_fault_reaches_caller_run :
  fst (connection sample_driver None body_raises (one_idle 1)) =
    Raise (Failure 9).
Proof.
  apply (block_fault_reaches_caller sample_driver None body_raises
           (one_idle 1)
           (snd (get sample_driver (one_idle 1)))
           (snd (get sample_driver (one_idle 1)))
           1%nat (Failure 9)); try reflexivity.
  intros c x c' H. simpl in H.
  destruct (Nat.eqb (driver_state c) 2); inversion H. reflexivity.
Defined.

(** On the strict driver the reset to level 5, which is already set, is
    refused. *)
Lemma failed_reset_replaces_fault_run :
  fst (connection strict_driver (Some 5) body_raises (one_idle 0)) =
    Raise (Failure 5) /\
  trace (snd (connection strict_driver (Some 5) body_raises (one_idle 0))) =
    [EvSetIsolationLevel 1%nat 5; EvRollback 1%nat;
     EvSetIsolationLevel 1%nat 5] /\
  pool (snd (connection strict_driver (Some 5) body_raises (one_idle 0))) = [].
Proof.
  apply (failed_reset_replaces_fault strict_driver (Some 5) body_raises
           (one_idle 0)
           (snd (call (set_isolation_level strict_driver 5)
                      (EvSetIsolationLevel 1%nat 5) 1%nat
                      (snd (get strict_driver (one_idle 0)))))
           (snd (call (set_isolation_level strict_driver 5)
                      (EvSetIsolationLevel 1%nat 5) 1%nat
                      (snd (get strict_driver (one_idle 0)))))
           1%nat 5 (Failure 9) (Failure 5) (mkConn true 5 0)
           (mkConn true 5 0)); reflexivity.
Defined.

Lemma failed_reset_after_commit_run :
  fst (connection strict_driver (Some 5) body_ok (one_idle 0)) =
    Raise (Failure 5) /\
  trace (snd (connection strict_driver (Some 5) body_ok (one_idle 0))) =
    [EvSetIsolationLevel 1%nat 5; EvCommit 1%nat;
     EvSetIsolationLevel 1%nat 5] /\
  pool (snd (connection strict_driver (Some 5) body_ok (one_idle 0))) = [].
Proof.
  apply (failed_reset_after_commit strict_driver (Some 5) body_ok
           (one_idle 0)
           (snd (call (set_isolation_level strict_driver 5)
                      (EvSetIsolationLevel 1%nat 5) 1%nat
                      (snd (get strict_driver (one_idle 0)))))
           (snd (call (set_isolation_level strict_driver 5)
                      (EvSetIsolationLevel 1%nat 5) 1%nat
                      (snd (get strict_driver (one_idle 0)))))
           1%nat 5 (Failure 5) (mkConn true 5 0) (mkConn true 5 0));
    reflexivity.
Defined.

(** The factory's second invocation fails under a [with] statement. *)
Lemma scope_over_failing_factory_run :
  fst (connection sample_driver (Some 5) body_ok one_out) =
    Raise (Failure 1) /\
  size (snd (connection sample_driver (Some 5) body_ok one_out)) = 1 /\
  pool (snd (connection sample_driver (Some 5) body_ok one_out)) = [] /\
  trace (snd (connection sample_driver (Some 5) body_ok one_out)) = [] /\
  forall body',
    connection sample_driver (Some 5) body' one_out =
      connection sample_driver (Some 5) body_ok one_out.
Proof.
  apply (scope_over_failing_factory sample_driver (Some 5) body_ok one_out
           (Failure 1)); reflexivity.
Defined.

(** The strict driver refuses level -1. *)
Lemma failed_override_skips_block_run :
  (forall body',
     connection strict_driver (Some (-1)) body' (one_idle 0) =
       connection strict_driver (Some (-1)) body_ok (one_idle 0)) /\
  (exists x,
     fst (connection strict_driver (Some (-1)) body_ok (one_idle 0)) =
       Raise x) /\
  (connected fresh = true ->
   exists evs,
     trace (snd (connection strict_driver (Some (-1)) body_ok (one_idle 0))) =
       [] ++ EvSetIsolationLevel 1%nat (-1) :: EvRollback 1%nat :: evs).
Proof.
  apply (failed_override_skips_block strict_driver body_ok (one_idle 0)
           (snd (get strict_driver (one_idle 0))) 1%nat (-1) (Failure 6)
           fresh); try reflexivity.
  simpl. lia.
Defined.

Lemma same_level_is_no_override_run :
  connection sample_driver (Some 0) body_ok (one_idle 0) =
    connection sample_driver None body_ok (one_idle 0) /\
  enter sample_driver (Some 0) (one_idle 0) =
    Yielded 1%nat None (snd (get sample_driver (one_idle 0))) /\
  forall raised w2, exists evs,
    issued w2 (snd (leave sample_driver 1%nat None raised w2)) evs /\
    forall h' x, ~ In (EvSetIsolationLevel h' x) evs.
Proof.
  apply (same_level_is_no_override sample_driver 0 body_ok (one_idle 0)
           (snd (get sample_driver (one_idle 0))) 1%nat); reflexivity.
Defined.

(** The only connection of a pool of capacity 1 drops under a failing
    statement. *)
Lemma lost_connection_exhausts_pool_run :
  get sample_driver
      (snd (connection sample_driver None body_drops_raises (one_idle 0))) =
    (Blocked,
     snd (connection sample_driver None body_drops_raises (one_idle 0))) /\
  forall ops,
    connects (run sample_driver ops
                (snd (connection sample_driver None body_drops_raises
                        (one_idle 0)))) = 2%nat.
Proof.
  apply (lost_connection_exhausts_pool sample_driver None None
           body_drops_raises (one_idle 0)
           (snd (get sample_driver (one_idle 0)))
           (snd (body_drops_raises 1%nat
                   (snd (get sample_driver (one_idle 0)))))
           1%nat (Failure 9)); try reflexivity; try (simpl; lia).
  intros c x c' H. simpl in H.
  destruct (Nat.eqb (driver_state c) 2); inversion H. reflexivity.
Defined.

Lemma normal_exit_means_committed_run :
  @None exn = None /\
  connected (heap (snd (get sample_driver (one_idle 0))) 1%nat) = true /\
  exists c evs,
    commit sample_driver (heap (snd (get sample_driver (one_idle 0))) 1%nat) =
      (None, c) /\
    trace (snd (connection sample_driver None body_ok (one_idle 0))) =
      trace (snd (get sample_driver (one_idle 0))) ++ EvCommit 1%nat :: evs /\
    filter ends_transaction evs = [].
Proof.
  apply (normal_exit_means_committed sample_driver None None body_ok
           (one_idle 0)
           (snd (get sample_driver (one_idle 0)))
           (snd (get sample_driver (one_idle 0)))
           1%nat None); reflexivity.
Defined.

(** [execute] of a statement on the pool whose only connection is idle. *)
Lemma execute_commits_and_returns_rowcount_run :
  fst (execute sample_driver sample_cursors ["update"%string] sample_kwargs
               (one_idle 0)) = Return (Some 3) /\
  trace (snd (execute sample_driver sample_cursors ["update"%string]
                      sample_kwargs (one_idle 0))) = [EvCommit 1%nat] /\
  pool (snd (execute sample_driver sample_cursors ["update"%string]
                     sample_kwargs (one_idle 0))) = [1%nat].
Proof.
  apply (execute_commits_and_returns_rowcount sample_driver sample_cursors
           ["update"%string] sample_kwargs (one_idle 0)
           (snd (get sample_driver (one_idle 0))) 1%nat None
           (mkCursor (-1) 0) (mkCursor 3 0) fresh fresh fresh); reflexivity.
Defined.



Lemma fetchall_returns_rows_run :
  fst (fetchall sample_driver sample_cursors ["select"%string] sample_kwargs
                (one_idle 0)) = Return (Some [[1]; [2]; [3]]) /\
  trace (snd (fetchall sample_driver sample_cursors ["select"%string]
                       sample_kwargs (one_idle 0))) = [EvCommit 1%nat] /\
  pool (snd (fetchall sample_driver sample_cursors ["select"%string]
                      sample_kwargs (one_idle 0))) = [1%nat].
Proof.
  apply (fetchall_returns_rows sample_driver sample_cursors
           ["select"%string] sample_kwargs (one_idle 0)
           (snd (get sample_driver (one_idle 0))) 1%nat None
           (mkCursor (-1) 0) (mkCursor 3 0) (mkCursor 3 3)
           fresh fresh fresh fresh [[1]; [2]; [3]]); reflexivity.
Defined.

Lemma fetchone_returns_row_run :
  fst (fetchone sample_driver sample_cursors ["select"%string] sample_kwargs
                (one_idle 0)) = Return (Some (Some [1])) /\
  trace (snd (fetchone sample_driver sample_cursors ["select"%string]
                       sample_kwargs (one_idle 0))) = [EvCommit 1%nat] /\
  pool (snd (fetchone sample_driver sample_cursors ["select"%string]
                      sample_kwargs (one_idle 0))) = [1%nat].
Proof.
  apply (fetchone_returns_row sample_driver sample_cursors
           ["select"%string] sample_kwargs (one_idle 0)
           (snd (get sample_driver (one_idle 0))) 1%nat None
           (mkCursor (-1) 0) (mkCursor 3 0) (mkCursor 3 1)
           fresh fresh fresh fresh (Some [1])); reflexivity.
Defined.

(** The sample table comes in two batches, of two rows and of one. *)
Lemma sample_table_served :
  serves sample_cursors (mkCursor 3 0) fresh [[[1]; [2]]; [[3]]]
         (mkCursor 3 6) fresh.
Proof.
  apply (serves_batch sample_cursors (mkCursor 3 0) (mkCursor 3 2)
           (mkCursor 3 6) fresh fresh fresh [[1]; [2]] [[[3]]]);
    [reflexivity|discriminate|].
  apply (serves_batch sample_cursors (mkCursor 3 2) (mkCursor 3 4)
           (mkCursor 3 6) fresh fresh fresh [[3]] []);
    [reflexivity|discriminate|].
  apply serves_end. reflexivity.
Defined.

Lemma fetchiter_yields_all_rows_run :
  exists w',
    fetchiter sample_driver sample_cursors 3 None ["select"%string]
              sample_kwargs (one_idle 0) =
      Some ([[1]; [2]; [3]], Return tt, w') /\
    trace w' = [EvCommit 1%nat] /\
    pool w' = [1%nat].
Proof.
  apply (fetchiter_yields_all_rows sample_driver sample_cursors 3
           ["select"%string] sample_kwargs (one_idle 0)
           (snd (get sample_driver (one_idle 0))) 1%nat None
           (mkCursor (-1) 0) (mkCursor 3 0) (mkCursor 3 6)
           fresh fresh fresh fresh [[[1]; [2]]; [[3]]]);
    try reflexivity; [exact sample_table_served|simpl; lia].
Defined.

(** The consumer takes the three rows there are and closes the
    generator. *)
Lemma closed_fetchiter_never_commits_run :
  exists rows out w',
    fetchiter sample_driver sample_cursors 3 (Some 3%nat) ["select"%string]
              sample_kwargs (one_idle 0) = Some (rows, out, w') /\
    rows = [[1]; [2]; [3]] /\
    (exists x, out = Raise x) /\
    exists evs,
      trace w' = trace (one_idle 0) ++ evs /\
      forall h, ~ In (EvCommit h) evs.
Proof.
  eexists _, _, _. split; [reflexivity|]. split; [reflexivity|].
  apply (closed_fetchiter_never_commits sample_driver sample_cursors 3 3
           ["select"%string] sample_kwargs (one_idle 0) _ [[1]; [2]; [3]]);
    [reflexivity|lia|reflexivity].
Defined.

(** * Counterexamples on the sample drivers *)

(** C7, as the claim has it, fails.  In the main greenlet the statement
    fails on connection 1, which is up, and [rollback] is interrupted: the
    hub raises the interrupt again, the caller sees it instead of the
    statement's failure, and connection 1 is back in the idle queue. *)
Lemma rollback_interrupt_replaces_primary_fault :
  let w0 := one_idle 1 in
  let w1 := snd (get main_greenlet_driver w0) in
  let w' := snd (connection main_greenlet_driver None body_raises w0) in
  enter main_greenlet_driver None w0 = Yielded 1%nat None w1 /\
  body_raises 1%nat w1 = (Some (Failure 9), w1) /\
  connected (heap w1 1%nat) = true /\
  fst (rollback main_greenlet_driver (heap w1 1%nat)) = Some (Interrupt 2) /\
  fst (connection main_greenlet_driver None body_raises w0) =
    Raise (Interrupt 2) /\
  fst (connection main_greenlet_driver None body_raises w0) <>
    Raise (Failure 9) /\
  trace w' = [EvRollback 1%nat; EvHandleError 1%nat (Interrupt 2)] /\
  pool w' = [1%nat].
Proof.
  cbv zeta. repeat split. discriminate.
Qed.

(** C5, as the claim has it, fails.  The statement fails on connection 1,
    which is up, and [rollback] returns.  On the dropping driver the
    connection reports not connected afterwards and is not put back; on the
    strict driver the call that resets the isolation level raises, the
    caller sees that exception instead of the statement's failure, and the
    connection is not put back. *)
Lemma rolled_back_connection_not_released :
  let w0 := one_idle 0 in
  let w1 := snd (get dropping_driver w0) in
  let dropped := connection dropping_driver None body_raises w0 in
  let refused := connection strict_driver (Some 5) body_raises w0 in
  (enter dropping_driver None w0 = Yielded 1%nat None w1 /\
   body_raises 1%nat w1 = (Some (Failure 9), w1) /\
   connected (heap w1 1%nat) = true /\
   fst (rollback dropping_driver (heap w1 1%nat)) = None /\
   trace (snd dropped) = [EvRollback 1%nat] /\
   pool (snd dropped) = []) /\
  (fst (rollback strict_driver (mkConn true 5 0)) = None /\
   trace (snd refused) =
     [EvSetIsolationLevel 1%nat 5; EvRollback 1%nat;
      EvSetIsolationLevel 1%nat 5] /\
   fst refused = Raise (Failure 5) /\
   fst refused <> Raise (Failure 9) /\
   pool (snd refused) = []).
Proof.
  cbv zeta. repeat split. discriminate.
Qed.

(** C9, as the claim has it, fails.  The statement succeeds on connection
    1, which is up, and [commit] is called.  On the dropping driver the
    connection reports not connected after [commit] and is not put back; on
    the strict driver the call that resets the isolation level raises and
    the connection is not put back: the next [get] blocks on the empty
    queue instead of returning the handle. *)
Lemma committed_connection_not_released :
  let w0 := one_idle 0 in
  let w1 := snd (get dropping_driver w0) in
  let dropped := connection dropping_driver None body_ok w0 in
  let refused := connection strict_driver (Some 5) body_ok w0 in
  (enter dropping_driver None w0 = Yielded 1%nat None w1 /\
   body_ok 1%nat w1 = (None, w1) /\
   connected (heap w1 1%nat) = true /\
   fst dropped = Return tt /\
   trace (snd dropped) = [EvCommit 1%nat] /\
   pool (snd dropped) = [] /\
   fst (get dropping_driver (snd dropped)) = Blocked) /\
  (trace (snd refused) =
     [EvSetIsolationLevel 1%nat 5; EvCommit 1%nat;
      EvSetIsolationLevel 1%nat 5] /\
   fst refused = Raise (Failure 5) /\
   pool (snd refused) = [] /\
   fst (get strict_driver (snd refused)) = Blocked).
Proof.
  cbv zeta. repeat split.
Qed.

(** The hub raises the interrupt of [rollback] again. *)
Lemma hub_error_replaces_fault_run :
  fst (connection main_greenlet_driver None body_raises (one_idle 1)) =
    Raise (Interrupt 2) /\
  trace (snd (connection main_greenlet_driver None body_raises (one_idle 1))) =
    [EvRollback 1%nat; EvHandleError 1%nat (Interrupt 2)] /\
  pool (snd (connection main_greenlet_driver None body_raises (one_idle 1))) =
    [1%nat].
Proof.
  apply (hub_error_replaces_fault main_greenlet_driver None None body_raises
           (one_idle 1)
           (snd (get main_greenlet_driver (one_idle 1)))
           (snd (get main_greenlet_driver (one_idle 1)))
           1%nat (Failure 9) (Interrupt 2) (Interrupt 2) (mkConn true 0 1));
    reflexivity.
Defined.
